(** * kdlc: KDL to JSON conversion and [@include] resolution

    A shallow embedding of [main.go]: the tree transcoder
    ([convertValue], [getArgName], [convertNodeToValue], the grouping loop
    of [convertKDLToJSON]) and the inclusion resolver ([processIncludes]).

    Go maps are finite maps with extensional equality ([gmap]); Go slices
    are lists; a pointer to a [document.Value], which may be [nil], is an
    [option]. *)

From Stdlib Require Import ZArith Ascii String.
From stdpp Require Import base option list strings gmap fin_maps pretty.

Local Open Scope string_scope.
Local Set Warnings "-register-all".

(** ** Data model *)

(** What [ResolvedValue()] of a [document.Value] hands back, by dynamic type.
    A [float64] is carried by its IEEE-754 bit pattern; any other dynamic
    type is carried with the text that the value's [String()] renders for it. *)
Inductive Value : Type :=
  | VString (s : string)
  | VInt64 (n : Z)
  | VFloat64 (bits : Z)
  | VBool (b : bool)
  | VNil
  | VOther (rendering : string).

(** A Go [interface{}] as [convertValue] and [convertNodeToValue] build it:
    [nil], the four scalars, a slice of [interface{}] and a map from [string]
    to [interface{}]. *)
Inductive GoValue : Type :=
  | GoNil
  | GoString (s : string)
  | GoInt64 (n : Z)
  | GoFloat64 (bits : Z)
  | GoBool (b : bool)
  | GoSlice (elems : list GoValue)
  | GoMap (fields : gmap string GoValue).

(** [document.Node], with [Name] standing for [node.Name.NodeNameString()]. *)
Inductive Node : Type :=
  mkNode {
    Name : string;
    Arguments : list (option Value);
    Properties : gmap string (option Value);
    Children : list Node
  }.

Definition is_array (v : GoValue) : bool :=
  match v with GoSlice _ => true | _ => false end.

Definition is_scalar (v : GoValue) : bool :=
  match v with GoSlice _ | GoMap _ => false | _ => true end.

(** ** Scalar conversion *)

Definition convertValue (value : option Value) : GoValue :=
  match value with
  | None => GoNil
  | Some resolved =>
      match resolved with
      | VString v => GoString v
      | VInt64 v => GoInt64 v
      | VFloat64 v => GoFloat64 v
      | VBool v => GoBool v
      | VNil => GoNil
      | VOther rendering => GoString rendering
      end
  end.

(** ** Ranging over a Go map

    [for k, v := range m { obj[k] = f(v) }].  Go visits the entries in an
    unspecified order; [range_assign_in] runs the loop in a given order and
    [range_assign] in the order of [map_to_list]. *)
Definition range_assign_in {A B} (f : A → B) (entries : list (string * A))
    (obj : gmap string B) : gmap string B :=
  foldl (λ acc kv, <[kv.1 := f kv.2]> acc) obj entries.

Definition range_assign {A B} (f : A → B) (m : gmap string A)
    (obj : gmap string B) : gmap string B :=
  range_assign_in f (map_to_list m) obj.

(** ** Argument naming and the tree transcoder *)

(** [groups[key] = append(groups[key], x)] for every [x], in order: the
    loop that builds [nodeGroups] and [childGroups].  A missing key reads
    as the [nil] slice. *)
Definition groupByKey {A} (key : A → string) (xs : list A) : gmap string (list A) :=
  foldl (λ groups x, <[key x := (default [] (groups !! key x) ++ [x])%list]> groups)
    ∅ xs.

(** One group of same-named siblings: the bare value when [len(nodes) == 1],
    a slice of the converted values otherwise. *)
Definition convertGroup {A} (conv : A → GoValue) (nodes : list A) : GoValue :=
  if decide (length nodes = 1%nat)
  then match nodes !! 0%nat with
       | Some n => conv n
       | None => GoNil (* not reached: [nodes] has one element *)
       end
  else GoSlice (conv <$> nodes).

Section Transcoder.

(** The package-level [argNameMap], as [main] leaves it after flag
    parsing; the same map serves every node of a run. *)
Variable argNameMap : gmap Z string.

Definition getArgName (index : Z) : string :=
  match argNameMap !! index with
  | Some name => name
  | None => "arg" +:+ pretty index
  end.

(** [for i, arg := range args { obj[getArgName(i+1)] = convertValue(arg) }],
    entered with [i] at [start]. *)
Fixpoint assignArguments (start : nat) (args : list (option Value))
    (obj : gmap string GoValue) : gmap string GoValue :=
  match args with
  | [] => obj
  | arg :: rest =>
      assignArguments (S start) rest
        (<[getArgName (Z.of_nat start + 1) := convertValue arg]> obj)
  end.

(** The body of [convertNodeToValue].  [child] is whatever stands for a
    child node: [key] reads its name and [conv] is the recursive call. *)
Definition convertNodeBody {A} (key : A → string) (conv : A → GoValue)
    (arguments : list (option Value)) (properties : gmap string (option Value))
    (children : list A) : GoValue :=
  if decide (0 < length children)%nat then
    let obj : gmap string GoValue := ∅ in
    let obj :=
      if decide (0 < length arguments)%nat
      then assignArguments 0 arguments obj else obj in
    let obj :=
      if decide (0 < size properties)%nat
      then range_assign convertValue properties obj else obj in
    let childGroups := groupByKey key children in
    let obj := range_assign (convertGroup conv) childGroups obj in
    GoMap obj
  else if decide (0 < size properties)%nat then
    let obj : gmap string GoValue := ∅ in
    let obj :=
      if decide (0 < length arguments)%nat
      then assignArguments 0 arguments obj else obj in
    let obj := range_assign convertValue properties obj in
    GoMap obj
  else if decide (1 < length arguments)%nat then
    GoSlice (convertValue <$> arguments)
  else if decide (length arguments = 1%nat) then
    match arguments !! 0%nat with
    | Some arg => convertValue arg
    | None => GoNil (* not reached: [arguments] has one element *)
    end
  else GoNil.

(** [convertNodeToValue].  The recursion is on the children: each child is
    converted where it stands in [node.Children] and carried with its name
    through the grouping; [convertNodeToValue_unfold] below shows this is
    the source's order (group the child nodes, then convert each one). *)
Fixpoint convertNodeToValue (node : Node) : GoValue :=
  match node with
  | mkNode _ arguments properties children =>
      convertNodeBody fst snd arguments properties
        (map (λ child, (Name child, convertNodeToValue child)) children)
  end.

(** The three loops of the has-children branch run one after the other
    on the same map: arguments, then properties, then child groups. *)
Definition objectOf (node : Node) : gmap string GoValue :=
  range_assign (convertGroup convertNodeToValue)
    (groupByKey Name (Children node))
    (range_assign convertValue (Properties node)
       (assignArguments 0 (Arguments node) ∅)).

(** The map [result] that [convertKDLToJSON] hands to [json.MarshalIndent],
    for a document with top-level nodes [nodes]. *)
Definition convertKDLToJSON (nodes : list Node) : gmap string GoValue :=
  let result : gmap string GoValue := ∅ in
  let nodeGroups := groupByKey Name nodes in
  range_assign (convertGroup convertNodeToValue) nodeGroups result.

End Transcoder.

(** ** Strings *)

(** The line feed and the double quote, by character code. *)
Definition LF : ascii := "010"%char.
Definition DQUOTE : ascii := "034"%char.

(** The class [\s] of Go's [regexp]: tab, line feed, form feed, carriage
    return and space. *)
Definition isSpace (c : ascii) : bool :=
  (c =? "009")%char || (c =? "010")%char || (c =? "012")%char
  || (c =? "013")%char || (c =? " ")%char.

Fixpoint skipSpace (s : string) : string :=
  match s with
  | String c rest => if isSpace c then skipSpace rest else s
  | EmptyString => s
  end.

(** [s] without its prefix [p], when it has that prefix. *)
Fixpoint stripPrefix (p s : string) : option string :=
  match p, s with
  | EmptyString, _ => Some s
  | String a p', String b s' => if (a =? b)%char then stripPrefix p' s' else None
  | String _ _, EmptyString => None
  end.

(** [strings.Contains(s, substr)]. *)
Fixpoint Contains (s substr : string) : bool :=
  match stripPrefix substr s with
  | Some _ => true
  | None =>
      match s with
      | String _ rest => Contains rest substr
      | EmptyString => false
      end
  end.

(** [strings.Split(s, sep)] for a separator of one byte. *)
Fixpoint Split (s : string) (sep : ascii) : list string :=
  match s with
  | EmptyString => [""]
  | String c rest =>
      if (c =? sep)%char then "" :: Split rest sep
      else match Split rest sep with
           | first :: others => String c first :: others
           | [] => [String c ""]
           end
  end.

(** [strings.Join(elems, sep)]. *)
Fixpoint Join (elems : list string) (sep : string) : string :=
  match elems with
  | [] => ""
  | [e] => e
  | e :: rest => e ++ sep ++ Join rest sep
  end.

Fixpoint lastChar (s : string) : option ascii :=
  match s with
  | EmptyString => None
  | String c EmptyString => Some c
  | String _ rest => lastChar rest
  end.

(** The longest prefix free of double quotes, and what follows it. *)
Fixpoint spanUnquoted (s : string) : string * string :=
  match s with
  | String c rest =>
      if (c =? DQUOTE)%char then ("", s)
      else let '(taken, remaining) := spanUnquoted rest in
           (String c taken, remaining)
  | EmptyString => ("", "")
  end.

(** [includeRegex.FindStringSubmatch(line)], giving the first submatch when
    the line matches.  The pattern reads: start of text, [\s*], the literal
    [@include], [\s+], a double quote, the submatch (one or more characters
    other than a double quote), a double quote; it is not anchored at the
    end.  Each repetition is followed by a character outside its class, so
    the longest run is the only candidate. *)
Definition includeRegex (line : string) : option string :=
  match stripPrefix "@include" (skipSpace line) with
  | Some (String c afterSpace) =>
      if isSpace c then
        match skipSpace afterSpace with
        | String q afterQuote =>
            if (q =? DQUOTE)%char then
              match spanUnquoted afterQuote with
              | (String p path, String _ _) => Some (String p path)
              | _ => None
              end
            else None
        | EmptyString => None
        end
      else None
  | _ => None
  end.

(** ** The shape of an inclusion directive *)

Fixpoint allSpace (s : string) : bool :=
  match s with
  | String c rest => isSpace c && allSpace rest
  | EmptyString => true
  end.

Fixpoint unquoted (s : string) : bool :=
  match s with
  | String c rest => negb (c =? DQUOTE)%char && unquoted rest
  | EmptyString => true
  end.

(** [line] is: optional white space, the marker [@include], white space,
    and [path] between double quotes, followed by [rest]. *)
Definition directiveShape (line path rest : string) : Prop :=
  ∃ indent gap,
    allSpace indent = true ∧ allSpace gap = true ∧ gap ≠ "" ∧
    path ≠ "" ∧ unquoted path = true ∧
    line = indent ++ "@include" ++ gap ++ String DQUOTE (path ++ String DQUOTE rest).

(** The directive as the specification words it: the content of the line,
    after optional leading white space, is the marker followed by a
    double-quoted file path, and nothing more. *)
Definition specDirective (line path : string) : Prop :=
  directiveShape line path "".

(** ** The inclusion resolver *)

Inductive IncludeError : Type :=
  | AbsFailed (filename : string)        (* failed to get absolute path *)
  | CircularInclude (filename : string)  (* circular include detected *)
  | ReadFailed (filename : string)       (* failed to read file *)
  | IncludeFailed (includeFile : string) (cause : IncludeError).
                                         (* failed to process include *)

Inductive Result (A : Type) : Type :=
  | Ok (a : A)
  | Err (e : IncludeError)
  | OutOfFuel.
Arguments Ok {A} a.
Arguments Err {A} e.
Arguments OutOfFuel {A}.

(** The error at the bottom of a chain of [IncludeFailed] wrappers. *)
Fixpoint rootCause (e : IncludeError) : IncludeError :=
  match e with
  | IncludeFailed _ cause => rootCause cause
  | _ => e
  end.

Definition isCircular (e : IncludeError) : bool :=
  match rootCause e with CircularInclude _ => true | _ => false end.

(** [included[absPath]]: a key that is not in the map reads [false]. *)
Definition visited (included : gmap string bool) (absPath : string) : bool :=
  default false (included !! absPath).

Section Resolver.

(** The file system and [path/filepath], as the resolver sees them. *)
Variable Abs : string → option string.      (* filepath.Abs *)
Variable Dir : string → string.             (* filepath.Dir *)
Variable JoinPath : string → string → string. (* filepath.Join *)
Variable ReadFile : string → option string. (* os.ReadFile *)

(** The [for _, line := range lines] loop of [processIncludes]; [recurse]
    is the recursive call.  [included] is the one map shared by the whole
    traversal, so each call returns it as it left it. *)
Fixpoint processLines
    (recurse : string → gmap string bool → gmap string bool * Result string)
    (filename : string) (lines : list string) (result : list string)
    (included : gmap string bool) : gmap string bool * Result (list string) :=
  match lines with
  | [] => (included, Ok result)
  | line :: rest =>
      match includeRegex line with
      | Some includeFile =>
          let dir := Dir filename in
          let includePath := JoinPath dir includeFile in
          match recurse includePath included with
          | (included, Ok includedContent) =>
              processLines recurse filename rest
                (result ++ [includedContent])%list included
          | (included, Err err) =>
              (included, Err (IncludeFailed includeFile err))
          | (included, OutOfFuel) => (included, OutOfFuel)
          end
      | None =>
          processLines recurse filename rest (result ++ [line])%list included
      end
  end.

Fixpoint processIncludes (fuel : nat) (filename : string)
    (included : gmap string bool) : gmap string bool * Result string :=
  match fuel with
  | O => (included, OutOfFuel)
  | S fuel =>
      match Abs filename with
      | None => (included, Err (AbsFailed filename))
      | Some absPath =>
          if visited included absPath
          then (included, Err (CircularInclude filename))
          else
            let included := <[absPath := true]> included in
            match ReadFile filename with
            | None => (included, Err (ReadFailed filename))
            | Some content =>
                if negb (Contains content "@include")
                then (included, Ok content)
                else
                  let lines := Split content LF in
                  match processLines (processIncludes fuel) filename lines []
                          included with
                  | (included, Ok result) =>
                      (included, Ok (Join result (String LF "")))
                  | (included, Err err) => (included, Err err)
                  | (included, OutOfFuel) => (included, OutOfFuel)
                  end
            end
      end
  end.

(** The loop, line by line: [Splices recurse filename lines included pieces
    included'] when [pieces] holds, for each line that the pattern matches,
    the text the recursive call returned for the named file (taken relative
    to the directory of [filename], and entered with the visited set as the
    lines before left it), and for any other line the line itself;
    [included'] is the visited set after the last line. *)
Inductive Splices
    (recurse : string → gmap string bool → gmap string bool * Result string)
    (filename : string)
    : list string → gmap string bool → list string → gmap string bool → Prop :=
  | splices_done included :
      Splices recurse filename [] included [] included
  | splices_copy line lines included pieces included' :
      includeRegex line = None →
      Splices recurse filename lines included pieces included' →
      Splices recurse filename (line :: lines) included (line :: pieces) included'
  | splices_include line lines included includeFile includedContent included1
      pieces included' :
      includeRegex line = Some includeFile →
      recurse (JoinPath (Dir filename) includeFile) included
      = (included1, Ok includedContent) →
      Splices recurse filename lines included1 pieces included' →
      Splices recurse filename (line :: lines) included
        (includedContent :: pieces) included'.

(** The files that the directives of [filename] name, in line order. *)
Definition directiveTargets (filename : string) : list string :=
  match ReadFile filename with
  | None => []
  | Some content =>
      omap (λ line, JoinPath (Dir filename) <$> includeRegex line)
        (Split content LF)
  end.

(** The specification's cycle: following directives down from
    [filename], some absolute path comes up again on the chain of files
    that are being expanded ([chain], innermost first).  Out of fuel
    counts as a repeat. *)
Fixpoint repeatsOnChain (fuel : nat) (chain : list string) (filename : string)
    : bool :=
  match fuel with
  | O => true
  | S fuel =>
      match Abs filename with
      | None => false
      | Some absPath =>
          bool_decide (absPath ∈ chain)
          || existsb (repeatsOnChain fuel (absPath :: chain))
               (directiveTargets filename)
      end
  end.

(** The traversal from [filename], entered with the visited set
    [included], comes to a directive whose target is already in the
    visited set: either [filename] itself is in the set, or the lines
    before one of its directives are processed without error and that
    directive's target, entered with the set as those lines left it,
    comes to one. *)
Inductive ReachesVisited : string → gmap string bool → Prop :=
  | reach_here filename absPath included :
      Abs filename = Some absPath →
      visited included absPath = true →
      ReachesVisited filename included
  | reach_include filename absPath included content before line after
      includeFile fuel included' result :
      Abs filename = Some absPath →
      visited included absPath = false →
      ReadFile filename = Some content →
      Split content LF = (before ++ line :: after)%list →
      processLines (processIncludes fuel) filename before []
        (<[absPath := true]> included) = (included', Ok result) →
      includeRegex line = Some includeFile →
      ReachesVisited (JoinPath (Dir filename) includeFile) included' →
      ReachesVisited filename included.

End Resolver.

(** ** A small file system for examples

    Paths are already absolute, every file sits in one directory, and the
    files are those listed. *)
Module Example.

Definition q (s : string) : string := String DQUOTE (s ++ String DQUOTE "").
Definition lines (ls : list string) : string := Join ls (String LF "").

Definition Abs (filename : string) : option string := Some filename.
Definition Dir (filename : string) : string := ".".
Definition JoinPath (dir file : string) : string := file.
Fixpoint ReadFile (files : list (string * string)) (filename : string)
    : option string :=
  match files with
  | [] => None
  | (name, content) :: rest =>
      if String.eqb name filename then Some content else ReadFile rest filename
  end.

(** A diamond: [main.kdl] includes [left.kdl] and [right.kdl], and each
    of them includes [shared.kdl]. *)
Definition diamond : list (string * string) :=
  [("main.kdl", lines ["@include " ++ q "left.kdl"; "@include " ++ q "right.kdl"]);
   ("left.kdl", lines ["@include " ++ q "shared.kdl"; "left 1"]);
   ("right.kdl", lines ["@include " ++ q "shared.kdl"; "right 2"]);
   ("shared.kdl", "shared 0")].

(** The two files of the test case named simple circular reference. *)
Definition circular : list (string * string) :=
  [("file1.kdl", lines ["@include " ++ q "file2.kdl"; "node1 " ++ q "test1"]);
   ("file2.kdl", lines ["@include " ++ q "file1.kdl"; "node2 " ++ q "test2"])].

(** A directive with text after the closing quote. *)
Definition trailingLine : string := "@include " ++ q "a.kdl" ++ " node 1".
Definition trailing : list (string * string) :=
  [("main.kdl", trailingLine); ("a.kdl", "x 1")].

(** The marker in a comment, and no directive. *)
Definition commented : list (string * string) :=
  [("plain.kdl", lines ["// no @include here"; "node 1"; ""])].

(** The default argument names, and the run [-arg1=x]. *)
Definition argNames : gmap Z string :=
  list_to_map [(1, "arg1"); (2, "arg2"); (3, "arg3"); (4, "arg4"); (5, "arg5")]%Z.
Definition argNamesX : gmap Z string := <[1%Z := "x"]> argNames.

Definition leaf (name : string) (arguments : list (option Value)) : Node :=
  mkNode name arguments ∅ [].

(** [item "sword" "weapon" damage=10] and two more [item] nodes around
    [scene "GameScene" { player "hero" level=5 }]. *)
Definition sword : Node :=
  mkNode "item" [Some (VString "sword"); Some (VString "weapon")]
    {[ "damage" := Some (VInt64 10) ]} [].
Definition shield : Node := leaf "item" [Some (VString "shield")].
Definition potion : Node := leaf "item" [].
Definition player : Node :=
  mkNode "player" [Some (VString "hero")] {[ "level" := Some (VInt64 5) ]} [].
Definition scene : Node := mkNode "scene" [Some (VString "GameScene")] ∅ [player].
Definition document : list Node := [sword; scene; shield; potion].

(** A node without arguments and properties, and one child. *)
Definition bare : Node := mkNode "config" [] ∅ [leaf "version" [Some (VString "1.0")]].

(** Under [-arg1=x]: an argument keyed [x], a property [x], children [x]. *)
Definition crowded : Node :=
  mkNode "n" [Some (VString "a"); Some (VInt64 3)]
    {[ "x" := Some (VBool true); "y" := Some VNil ]}
    [leaf "x" [Some (VString "c1")]; leaf "z" []; leaf "x" []].

(** The run [-arg1=type -arg2=category] of the README. *)
Definition argNamesTyped : gmap Z string :=
  <[2%Z := "category"]> (<[1%Z := "type"]> argNames).

(** [scene "Main" {}]: braces and no child in them. *)
Definition emptyBraces : Node := mkNode "scene" [Some (VString "Main")] ∅ [].

(** The files of the test cases named basic include and self include. *)
Definition basicInclude : list (string * string) :=
  [("base.kdl", lines ["config {"; "    version " ++ q "1.0"; "}"]);
   ("main.kdl", lines ["@include " ++ q "base.kdl"; ""; "scene " ++ q "TestScene" ++ " {}"])].
Definition selfInclude : list (string * string) :=
  [("self.kdl", lines ["@include " ++ q "self.kdl"; "node " ++ q "test"])].

End Example.

(** ** The run's configuration and further vocabulary *)

(** The package-level [argNameMap] as it is initialised. *)
Definition defaultArgNameMap : gmap Z string :=
  {[ 1%Z := "arg1"; 2%Z := "arg2"; 3%Z := "arg3"; 4%Z := "arg4"; 5%Z := "arg5" ]}.

(** The five assignments of [main] under "Update the argument name
    mapping", given the values of the flags [-arg1] to [-arg5]. *)
Definition setArgNames (arg1Name arg2Name arg3Name arg4Name arg5Name : string)
    (argNameMap : gmap Z string) : gmap Z string :=
  let argNameMap := <[1%Z := arg1Name]> argNameMap in
  let argNameMap := <[2%Z := arg2Name]> argNameMap in
  let argNameMap := <[3%Z := arg3Name]> argNameMap in
  let argNameMap := <[4%Z := arg4Name]> argNameMap in
  let argNameMap := <[5%Z := arg5Name]> argNameMap in
  argNameMap.

(** The keys that the argument loop assigns, in argument order, when it is
    entered with [i] at [start]. *)
Fixpoint argumentKeys (argNameMap : gmap Z string) (start : nat)
    (arguments : list (option Value)) : list string :=
  match arguments with
  | [] => []
  | _ :: rest =>
      getArgName argNameMap (Z.of_nat start + 1)
      :: argumentKeys argNameMap (S start) rest
  end.

(** A value without nesting: a scalar, a slice of scalars or a map of
    scalars. *)
Definition is_flat (v : GoValue) : Prop :=
  match v with
  | GoSlice elems => Forall (λ e, is_scalar e = true) elems
  | GoMap fields => map_Forall (λ _ e, is_scalar e = true) fields
  | _ => True
  end.


(** How many of the absolute paths in [files] are not in the visited set. *)
Definition unvisited (files : gset string) (included : gmap string bool) : nat :=
  size (filter (λ absPath, visited included absPath = false) files).

(** Further files for examples, on the file system of [Example]. *)
Module Cases.

(** A directive that names a file which is not there. *)
Definition dangling : list (string * string) :=
  [("main.kdl", Example.lines ["first 1"; "@include " ++ Example.q "gone.kdl"; "last 2"])].

(** The text that [main.kdl] of [Example.basicInclude] resolves to. *)
Definition resolvedText : string :=
  Example.lines ["config {"; "    version " ++ Example.q "1.0"; "}"; "";
                 "scene " ++ Example.q "TestScene" ++ " {}"].

(** [Example.basicInclude] with that text stored in a third file. *)
Definition stored : list (string * string) :=
  ("resolved.kdl", resolvedText) :: Example.basicInclude.

End Cases.

(** * Properties *)

(** ** Ranging over a map: the visiting order does not matter *)

Lemma range_assign_in_union {A B} (f : A → B) (entries : list (string * A))
    (obj : gmap string B) :
  NoDup entries.*1 →
  range_assign_in f entries obj = (f <$> list_to_map entries) ∪ obj.
Proof.
  revert obj. induction entries as [|[k v] entries IH]; intros obj Hnd.
  - cbn. by rewrite fmap_empty, (left_id_L ∅ (∪)).
  - apply NoDup_cons in Hnd as [Hk Hnd]. cbn.
    change (foldl _ ?o entries) with (range_assign_in f entries o).
    rewrite IH by done. apply map_eq; intros i.
    rewrite fmap_insert, !lookup_union, !lookup_insert.
    destruct (decide (k = i)) as [->|Hne].
    + rewrite lookup_fmap, (not_elem_of_list_to_map_1 _ i Hk).
      by destruct (obj !! i).
    + done.
Qed.

Lemma range_assign_union {A B} (f : A → B) (m : gmap string A) (obj : gmap string B) :
  range_assign f m obj = (f <$> m) ∪ obj.
Proof.
  unfold range_assign.
  rewrite range_assign_in_union by apply NoDup_fst_map_to_list.
  by rewrite list_to_map_to_list.
Qed.

(** Whatever order Go picks for the entries, the loop leaves the same map. *)
Lemma range_assign_any_order {A B} (f : A → B) (m : gmap string A)
    (entries : list (string * A)) (obj : gmap string B) :
  entries ≡ₚ map_to_list m →
  range_assign_in f entries obj = range_assign f m obj.
Proof.
  intros Hperm. rewrite range_assign_union.
  assert (NoDup entries.*1) as Hnd.
  { rewrite Hperm. apply NoDup_fst_map_to_list. }
  rewrite range_assign_in_union by done.
  by rewrite (list_to_map_proper _ _ Hnd Hperm), list_to_map_to_list.
Qed.

Lemma range_assign_lookup {A B} (f : A → B) (m : gmap string A)
    (obj : gmap string B) (k : string) :
  range_assign f m obj !! k =
    match m !! k with Some v => Some (f v) | None => obj !! k end.
Proof.
  rewrite range_assign_union, lookup_union, lookup_fmap.
  destruct (m !! k); cbn; [by destruct (obj !! k)|by rewrite (left_id_L None _)].
Qed.

(** ** Grouping by name *)

Lemma groupByKey_snoc {A} (key : A → string) (xs : list A) (x : A) :
  groupByKey key (xs ++ [x]) =
    <[key x := (default [] (groupByKey key xs !! key x) ++ [x])%list]>
      (groupByKey key xs).
Proof. unfold groupByKey. by rewrite foldl_app. Qed.

(** The group of a name is the sublist of the nodes bearing it, in their
    original order; a name borne by no node has no group. *)
Lemma groupByKey_lookup {A} (key : A → string) (xs : list A) (k : string) :
  groupByKey key xs !! k =
    match filter (λ x, key x = k) xs with
    | [] => None
    | group => Some group
    end.
Proof.
  induction xs as [|x xs IH] using rev_ind; [done|].
  rewrite groupByKey_snoc, filter_app, lookup_insert.
  destruct (decide (key x = k)) as [Heq|Hne].
  - rewrite Heq, IH, (filter_cons_True (λ y, key y = k) x [] Heq).
    by destruct (filter _ xs).
  - rewrite IH, (filter_cons_False (λ y, key y = k) x [] Hne).
    by rewrite filter_nil, (right_id_L [] app).
Qed.

Lemma groupByKey_fmap {A B} (key : A → string) (keyB : B → string) (h : A → B)
    (xs : list A) :
  (∀ x, keyB (h x) = key x) →
  groupByKey keyB (h <$> xs) = fmap (M:=list) h <$> groupByKey key xs.
Proof.
  intros Hkey. induction xs as [|x xs IH] using rev_ind; [done|].
  rewrite fmap_app. cbn. rewrite !groupByKey_snoc, IH, fmap_insert, Hkey.
  f_equal. rewrite lookup_fmap.
  destruct (groupByKey key xs !! key x); cbn; [|done].
  by rewrite fmap_app.
Qed.

Lemma convertGroup_fmap {A B} (conv : B → GoValue) (h : A → B) (nodes : list A) :
  convertGroup conv (h <$> nodes) = convertGroup (conv ∘ h) nodes.
Proof.
  unfold convertGroup. rewrite length_fmap, list_lookup_fmap, <- list_fmap_compose.
  by destruct (nodes !! 0%nat).
Qed.

(** ** The recursion of [convertNodeToValue] is the source's *)

Section TranscoderFacts.

Variable argNameMap : gmap Z string.

Lemma convertNodeToValue_unfold (node : Node) :
  convertNodeToValue argNameMap node =
    convertNodeBody argNameMap Name (convertNodeToValue argNameMap)
      (Arguments node) (Properties node) (Children node).
Proof.
  destruct node as [name arguments properties children]. cbn.
  unfold convertNodeBody.
  change (map ?f children) with (f <$> children).
  rewrite length_fmap.
  destruct (decide (0 < length children)%nat); [|done].
  f_equal. rewrite !range_assign_union. f_equal.
  rewrite (groupByKey_fmap Name) by done.
  rewrite <- map_fmap_compose. apply map_fmap_ext; intros k group _.
  cbn. by rewrite convertGroup_fmap.
Qed.

(** The guards [len(node.Arguments) > 0] and [len(node.Properties) > 0]
    only skip loops that would not run. *)
Lemma assignArguments_guard (arguments : list (option Value))
    (obj : gmap string GoValue) :
  (if decide (0 < length arguments)%nat
   then assignArguments argNameMap 0 arguments obj else obj)
  = assignArguments argNameMap 0 arguments obj.
Proof. destruct arguments; [done|]. cbn [length]. by rewrite decide_True by lia. Qed.

Lemma range_assign_guard {A B} (f : A → B) (m : gmap string A)
    (obj : gmap string B) :
  (if decide (0 < size m)%nat then range_assign f m obj else obj)
  = range_assign f m obj.
Proof.
  case_decide as Hsize; [done|].
  assert (m = ∅) as -> by (apply map_size_empty_inv; lia).
  unfold range_assign. by rewrite map_to_list_empty.
Qed.

Lemma convertNodeToValue_object (node : Node) :
  Children node ≠ [] →
  convertNodeToValue argNameMap node = GoMap (objectOf argNameMap node).
Proof.
  intros Hch. rewrite convertNodeToValue_unfold. unfold convertNodeBody.
  rewrite decide_True by (destruct (Children node); [done|cbn; lia]).
  by rewrite assignArguments_guard, range_assign_guard.
Qed.

Lemma convertNodeToValue_leaf (node : Node) :
  Children node = [] →
  Properties node = ∅ →
  convertNodeToValue argNameMap node =
    match Arguments node with
    | [] => GoNil
    | [arg] => convertValue arg
    | arguments => GoSlice (convertValue <$> arguments)
    end.
Proof.
  intros Hch Hprops. rewrite convertNodeToValue_unfold. unfold convertNodeBody.
  rewrite Hch, Hprops, map_size_empty. cbn.
  by destruct (Arguments node) as [|a [|b rest]].
Qed.

(** Where [assignArguments] leaves a key it does not assign. *)
Lemma assignArguments_lookup_other (start : nat) (arguments : list (option Value))
    (obj : gmap string GoValue) (k : string) :
  (∀ i, (i < length arguments)%nat →
        getArgName argNameMap (Z.of_nat (start + i) + 1) ≠ k) →
  assignArguments argNameMap start arguments obj !! k = obj !! k.
Proof.
  revert start obj. induction arguments as [|arg rest IH]; intros start obj Hk; [done|].
  cbn. rewrite IH.
  - apply lookup_insert_ne. specialize (Hk 0%nat). rewrite Nat.add_0_r in Hk.
    apply Hk. cbn. lia.
  - intros i Hi. replace (S start + i)%nat with (start + S i)%nat by lia.
    apply Hk. cbn. lia.
Qed.

(** The argument at position [i] (0-based) is found under its key unless
    a later argument is given the same key. *)
Lemma assignArguments_lookup_last (start : nat) (arguments : list (option Value))
    (obj : gmap string GoValue) (i : nat) (arg : option Value) :
  arguments !! i = Some arg →
  (∀ j, (i < j < length arguments)%nat →
        getArgName argNameMap (Z.of_nat (start + j) + 1)
        ≠ getArgName argNameMap (Z.of_nat (start + i) + 1)) →
  assignArguments argNameMap start arguments obj
    !! getArgName argNameMap (Z.of_nat (start + i) + 1)
  = Some (convertValue arg).
Proof.
  revert start obj i.
  induction arguments as [|a rest IH]; intros start obj i Hi Hlater; [done|].
  destruct i as [|i]; cbn in Hi |- *.
  - injection Hi as ->. rewrite Nat.add_0_r.
    rewrite assignArguments_lookup_other; [apply lookup_insert_eq|].
    intros j Hj. replace (S start + j)%nat with (start + S j)%nat by lia.
    specialize (Hlater (S j)). rewrite Nat.add_0_r in Hlater.
    apply Hlater. cbn. lia.
  - replace (start + S i)%nat with (S start + i)%nat by lia.
    apply IH; [done|]. intros j Hj.
    replace (S start + j)%nat with (start + S j)%nat by lia.
    replace (S start + i)%nat with (start + S i)%nat by lia.
    apply Hlater. cbn. lia.
Qed.

End TranscoderFacts.

(** ** The transcoder's shape rules *)

Section TranscoderClaims.

Variable argNameMap : gmap Z string.

Lemma convertValue_scalar (value : option Value) :
  is_scalar (convertValue value) = true.
Proof. by destruct value as [[]|]. Qed.

(** What one pass over the groups leaves under a name: nothing new when no
    sibling bears it, the bare value for one, a slice in sibling order for
    more. *)
Lemma grouped_lookup {A} (key : A → string) (conv : A → GoValue) (xs : list A)
    (obj : gmap string GoValue) (name : string) :
  range_assign (convertGroup conv) (groupByKey key xs) obj !! name =
    match filter (λ x, key x = name) xs with
    | [] => obj !! name
    | [x] => Some (conv x)
    | group => Some (GoSlice (conv <$> group))
    end.
Proof.
  rewrite range_assign_lookup, groupByKey_lookup.
  by destruct (filter _ xs) as [|x [|y rest]].
Qed.

(** C1: a node with at least one child converts to a JSON object, never a
    scalar or an array, whatever its arguments and properties are (none
    included). *)
Theorem children_give_object (node : Node) :
  Children node ≠ [] →
  (∃ obj, convertNodeToValue argNameMap node = GoMap obj) ∧
  is_scalar (convertNodeToValue argNameMap node) = false ∧
  is_array (convertNodeToValue argNameMap node) = false.
Proof.
  intros Hch. rewrite (convertNodeToValue_object _ _ Hch).
  split; [by eexists|done].
Qed.

(** C2: among the top-level nodes of a document, and among the children
    of any node, a name borne by exactly one sibling maps to that node's
    converted value, bare; a name borne by two or more maps to the slice
    of their converted values in document order. *)
Theorem siblings_grouped (name : string) :
  (∀ nodes : list Node,
     let group := filter (λ n, Name n = name) nodes in
     (∀ n, group = [n] →
        convertKDLToJSON argNameMap nodes !! name
        = Some (convertNodeToValue argNameMap n)) ∧
     ((2 ≤ length group)%nat →
        convertKDLToJSON argNameMap nodes !! name
        = Some (GoSlice (convertNodeToValue argNameMap <$> group)))) ∧
  (∀ parent : Node,
     let group := filter (λ n, Name n = name) (Children parent) in
     group ≠ [] →
     ∃ obj, convertNodeToValue argNameMap parent = GoMap obj ∧
       (∀ n, group = [n] →
          obj !! name = Some (convertNodeToValue argNameMap n)) ∧
       ((2 ≤ length group)%nat →
          obj !! name
          = Some (GoSlice (convertNodeToValue argNameMap <$> group)))).
Proof.
  split.
  - intros nodes group. unfold convertKDLToJSON. rewrite grouped_lookup.
    fold group. split.
    + by intros n ->.
    + destruct group as [|x [|y rest]]; cbn; [lia|lia|done].
  - intros parent group Hne.
    assert (Children parent ≠ []) as Hch.
    { intros Hnil. apply Hne. unfold group. by rewrite Hnil. }
    exists (objectOf argNameMap parent).
    split; [by apply convertNodeToValue_object|].
    unfold objectOf. rewrite grouped_lookup. fold group. split.
    + by intros n ->.
    + destruct group as [|x [|y rest]]; cbn; [lia|lia|done].
Qed.

(** C3: a node without children and without properties converts to its
    one argument's scalar, bare; to the slice of its converted arguments,
    in order, when it has two or more; to [nil] when it has none. *)
Theorem leaf_shapes (node : Node) :
  Children node = [] →
  Properties node = ∅ →
  (∀ arg, Arguments node = [arg] →
     convertNodeToValue argNameMap node = convertValue arg ∧
     is_scalar (convertNodeToValue argNameMap node) = true) ∧
  ((2 ≤ length (Arguments node))%nat →
     convertNodeToValue argNameMap node
     = GoSlice (convertValue <$> Arguments node)) ∧
  (Arguments node = [] → convertNodeToValue argNameMap node = GoNil).
Proof.
  intros Hch Hprops. rewrite (convertNodeToValue_leaf _ _ Hch Hprops).
  split; [|split].
  - intros arg ->. split; [done|apply convertValue_scalar].
  - destruct (Arguments node) as [|a [|b rest]]; cbn; [lia|lia|done].
  - by intros ->.
Qed.

(** C7: the object of a node with children holds argument keys, property
    keys and child keys in one map, assigned in that order, so on a
    collision the later assignment is the one found: a child name hides a
    property or argument of that key, a property hides an argument of
    that key (and a later argument an earlier one). *)
Theorem later_insertion_wins (node : Node) :
  Children node ≠ [] →
  ∃ obj, convertNodeToValue argNameMap node = GoMap obj ∧
    (∀ k, filter (λ c, Name c = k) (Children node) ≠ [] →
       obj !! k = Some (convertGroup (convertNodeToValue argNameMap)
                          (filter (λ c, Name c = k) (Children node)))) ∧
    (∀ k v, filter (λ c, Name c = k) (Children node) = [] →
       Properties node !! k = Some v →
       obj !! k = Some (convertValue v)) ∧
    (∀ i arg, Arguments node !! i = Some arg →
       let k := getArgName argNameMap (Z.of_nat i + 1) in
       filter (λ c, Name c = k) (Children node) = [] →
       Properties node !! k = None →
       (∀ j, (i < j < length (Arguments node))%nat →
             getArgName argNameMap (Z.of_nat j + 1) ≠ k) →
       obj !! k = Some (convertValue arg)) ∧
    (∀ k, filter (λ c, Name c = k) (Children node) = [] →
       Properties node !! k = None →
       (∀ i, (i < length (Arguments node))%nat →
             getArgName argNameMap (Z.of_nat i + 1) ≠ k) →
       obj !! k = None).
Proof.
  intros Hch. exists (objectOf argNameMap node).
  split; [by apply convertNodeToValue_object|].
  unfold objectOf. split; [|split; [|split]].
  - intros k Hgroup. rewrite range_assign_lookup, groupByKey_lookup.
    by destruct (filter _ (Children node)).
  - intros k v Hnone Hprop.
    by rewrite grouped_lookup, Hnone, range_assign_lookup, Hprop.
  - intros i arg Harg Hnone Hprop Hlater.
    rewrite grouped_lookup, Hnone, range_assign_lookup, Hprop.
    by apply (assignArguments_lookup_last argNameMap 0).
  - intros k Hnone Hprop Hargs.
    rewrite grouped_lookup, Hnone, range_assign_lookup, Hprop.
    by rewrite (assignArguments_lookup_other argNameMap 0).
Qed.

(** C9: the value of a node is a function of its arguments, properties
    and children (and of the run's argument names): its own name and the
    nodes around it play no part.  Among any siblings, what the parent
    stores for the node's name is that same value, bare or as an element
    of the group's slice. *)
Theorem value_depends_on_own_fields :
  (∀ n1 n2 : Node,
     Arguments n1 = Arguments n2 →
     Properties n1 = Properties n2 →
     Children n1 = Children n2 →
     convertNodeToValue argNameMap n1 = convertNodeToValue argNameMap n2) ∧
  (∀ (siblings : list Node) (n : Node),
     n ∈ siblings →
     ∃ v, convertKDLToJSON argNameMap siblings !! Name n = Some v ∧
       (v = convertNodeToValue argNameMap n ∨
        ∃ elems, v = GoSlice elems ∧ convertNodeToValue argNameMap n ∈ elems)).
Proof.
  split.
  - intros n1 n2 Ha Hp Hc. rewrite !convertNodeToValue_unfold.
    by rewrite Ha, Hp, Hc.
  - intros siblings n Hin. unfold convertKDLToJSON. rewrite grouped_lookup.
    assert (n ∈ filter (λ x, Name x = Name n) siblings) as Hmem
      by (by apply list_elem_of_filter).
    destruct (filter _ siblings) as [|x [|y rest]] eqn:Hgroup.
    + by apply elem_of_nil in Hmem.
    + apply list_elem_of_singleton in Hmem as ->. eauto.
    + eexists. split; [done|]. right. eexists. split; [done|].
      by apply list_elem_of_fmap_2.
Qed.

(** C10: [convertValue] has a value for every input, the [nil] pointer
    included, and for the [nil] pointer that value is [nil]. *)
Theorem convertValue_nil :
  convertValue None = GoNil ∧ ∀ value, ∃ v, convertValue value = v.
Proof. split; [reflexivity|]. intros value. by eexists. Qed.

End TranscoderClaims.

(** ** Splitting, joining and searching text *)

Lemma app_cons (c : ascii) (s t : string) : String c s ++ t = String c (s ++ t).
Proof. reflexivity. Qed.

Lemma app_nil_r (s : string) : s ++ "" = s.
Proof. induction s as [|c s IH]; [done|]. by rewrite app_cons, IH. Qed.

Lemma app_assoc (s t u : string) : (s ++ t) ++ u = s ++ t ++ u.
Proof. induction s as [|c s IH]; [done|]. by rewrite !app_cons, IH. Qed.

Lemma stripPrefix_app (p r : string) : stripPrefix p (p ++ r) = Some r.
Proof.
  induction p as [|c p IH]; [done|].
  rewrite app_cons. cbn. by rewrite Ascii.eqb_refl.
Qed.

Lemma stripPrefix_Some (p s r : string) : stripPrefix p s = Some r → s = p ++ r.
Proof.
  revert s. induction p as [|a p IH]; intros [|b s] Hs; cbn in Hs; try by simplify_eq.
  destruct (Ascii.eqb_spec a b) as [->|]; [|done].
  rewrite app_cons. f_equal. by apply IH.
Qed.

Lemma Contains_app (a substr b : string) : Contains (a ++ substr ++ b) substr = true.
Proof.
  induction a as [|c a IH].
  - change ("" ++ substr ++ b) with (substr ++ b).
    destruct (substr ++ b) eqn:Heq; cbn; rewrite <- Heq, stripPrefix_app; done.
  - rewrite app_cons. cbn. rewrite IH. by destruct (stripPrefix _ _).
Qed.

Lemma Contains_inv (s substr : string) :
  Contains s substr = true → ∃ a b, s = a ++ substr ++ b.
Proof.
  induction s as [|c s IH]; cbn.
  - destruct (stripPrefix substr "") as [r|] eqn:Hr; [|done].
    intros _. exists "", r. by apply (stripPrefix_Some substr).
  - destruct (stripPrefix substr (String c s)) as [r|] eqn:Hr.
    + intros _. exists "", r. by apply (stripPrefix_Some substr).
    + intros [a [b ->]]%IH. by exists (String c a), b.
Qed.

(** A string that holds a string holding [substr] holds [substr]. *)
Lemma Contains_within (a s b substr : string) :
  Contains s substr = true → Contains (a ++ s ++ b) substr = true.
Proof.
  intros [a' [b' ->]]%Contains_inv.
  rewrite !app_assoc, <- (app_assoc a a'). apply Contains_app.
Qed.

Lemma Split_cons_inv (s : string) (sep : ascii) :
  ∃ first others, Split s sep = first :: others.
Proof.
  induction s as [|c s [first [others IH]]]; cbn; [by eauto|].
  destruct (c =? sep)%char; [by eauto|]. rewrite IH. eauto.
Qed.

Lemma Join_cons_char (c : ascii) (first : string) (others : list string)
    (sep : string) :
  Join (String c first :: others) sep = String c (Join (first :: others) sep).
Proof. by destruct others. Qed.

Lemma Join_cons_cons (e e' : string) (rest : list string) (sep : string) :
  Join (e :: e' :: rest) sep = e ++ sep ++ Join (e' :: rest) sep.
Proof. reflexivity. Qed.

(** Joining what [Split] returns, on the same separator, gives the text
    back. *)
Lemma Join_Split (s : string) (sep : ascii) :
  Join (Split s sep) (String sep "") = s.
Proof.
  induction s as [|c s IH]; [done|]. cbn [Split].
  destruct (Split_cons_inv s sep) as [first [others Hsplit]].
  rewrite Hsplit in IH |- *.
  destruct (Ascii.eqb_spec c sep) as [->|_].
  - by rewrite Join_cons_cons, IH.
  - by rewrite Join_cons_char, IH.
Qed.

(** The first line starts the text; every line is a piece of the text. *)
Lemma Split_first_prefix (s : string) (sep : ascii) (first : string)
    (others : list string) :
  Split s sep = first :: others → ∃ b, s = first ++ b.
Proof.
  revert first others. induction s as [|c s IH]; intros first others; cbn [Split].
  - intros [= <- <-]. by exists "".
  - destruct (Split_cons_inv s sep) as [f [o Hsplit]]. rewrite Hsplit.
    destruct (c =? sep)%char; intros [= <- <-].
    + by exists (String c s).
    + destruct (IH f o Hsplit) as [b ->]. by exists b.
Qed.

Lemma Split_line_within (s : string) (sep : ascii) (line : string) :
  line ∈ Split s sep → ∃ a b, s = a ++ line ++ b.
Proof.
  revert line. induction s as [|c s IH]; intros line; cbn [Split].
  - intros ->%list_elem_of_singleton. by exists "", "".
  - destruct (Split_cons_inv s sep) as [first [others Hsplit]].
    rewrite Hsplit in IH |- *.
    destruct (c =? sep)%char; intros [->|Hin]%elem_of_cons.
    + by exists "", (String c s).
    + destruct (IH line Hin) as [a [b ->]]. by exists (String c a), b.
    + destruct (Split_first_prefix _ _ _ _ Hsplit) as [b ->]. by exists "", b.
    + destruct (IH line) as [a [b ->]]; [by right|]. by exists (String c a), b.
Qed.

(** ** The directive pattern *)

Lemma skipSpace_split (s : string) :
  ∃ indent, allSpace indent = true ∧ s = indent ++ skipSpace s.
Proof.
  induction s as [|c s [indent [Hsp Hs]]]; [by exists ""|]. cbn.
  destruct (isSpace c) eqn:Hc; [|by exists ""].
  exists (String c indent). cbn. rewrite Hc, Hsp, app_cons. by rewrite <- Hs.
Qed.

Lemma skipSpace_app (indent s : string) :
  allSpace indent = true → skipSpace (indent ++ s) = skipSpace s.
Proof.
  induction indent as [|c indent IH]; [done|]. cbn.
  intros [Hc Hsp]%andb_true_iff. rewrite app_cons. cbn. rewrite Hc. auto.
Qed.

Lemma spanUnquoted_split (s taken remaining : string) :
  spanUnquoted s = (taken, remaining) →
  s = taken ++ remaining ∧ unquoted taken = true ∧
  (remaining = "" ∨ ∃ r, remaining = String DQUOTE r).
Proof.
  revert taken. induction s as [|c s IH]; intros taken; cbn.
  - intros [= <- <-]. auto.
  - destruct (Ascii.eqb_spec c DQUOTE) as [->|Hc].
    + intros [= <- <-]. eauto.
    + destruct (spanUnquoted s) as [t r]. intros [= <- <-].
      destruct (IH t eq_refl) as [-> [Hun Hr]].
      rewrite app_cons. cbn. rewrite Hun.
      by apply Ascii.eqb_neq in Hc as ->.
Qed.

Lemma spanUnquoted_app (path rest : string) :
  unquoted path = true →
  spanUnquoted (path ++ String DQUOTE rest) = (path, String DQUOTE rest).
Proof.
  induction path as [|c path IH]; [done|]. cbn.
  intros [Hc Hun]%andb_true_iff. rewrite app_cons. cbn.
  apply negb_true_iff in Hc. by rewrite Hc, IH.
Qed.

(** The lines the pattern matches, and the submatch it returns. *)
Lemma includeRegex_spec (line path : string) :
  includeRegex line = Some path ↔ ∃ rest, directiveShape line path rest.
Proof.
  unfold includeRegex, directiveShape. split.
  - destruct (skipSpace_split line) as [indent [Hindent Hline]].
    destruct (stripPrefix "@include" (skipSpace line)) as [[|c afterSpace]|] eqn:Hmarker;
      [done| |done].
    apply stripPrefix_Some in Hmarker.
    destruct (isSpace c) eqn:Hc; [|done].
    destruct (skipSpace_split afterSpace) as [gap [Hgap HafterSpace]].
    destruct (skipSpace afterSpace) as [|q afterQuote]; [done|].
    destruct (Ascii.eqb_spec q DQUOTE) as [->|]; [|done].
    destruct (spanUnquoted afterQuote) as [taken remaining] eqn:Hspan.
    apply spanUnquoted_split in Hspan as [-> [Hun Hrem]].
    destruct taken as [|p taken]; [done|].
    destruct Hrem as [->|[rest ->]]; [done|]. intros [= <-].
    exists rest, indent, (String c gap). cbn [allSpace]. rewrite Hc, Hgap.
    repeat (split; [done|]).
    by rewrite Hline, Hmarker, HafterSpace.
  - intros [rest [indent [gap (Hindent & Hgap & Hne & Hpath & Hun & ->)]]].
    rewrite skipSpace_app by done.
    destruct gap as [|c gap]; [done|]. cbn in Hgap.
    apply andb_true_iff in Hgap as [Hc Hgap].
    change (skipSpace ("@include" ++ ?s)) with ("@include" ++ s).
    rewrite stripPrefix_app, app_cons, Hc, skipSpace_app by done.
    cbn. rewrite spanUnquoted_app by done.
    by destruct path.
Qed.

(** A line that the pattern matches holds the marker. *)
Lemma includeRegex_Contains (line path : string) :
  includeRegex line = Some path → Contains line "@include" = true.
Proof.
  intros [rest [indent [gap (_ & _ & _ & _ & _ & ->)]]]%includeRegex_spec.
  apply Contains_app.
Qed.

(** A text without the marker has no line that the pattern matches: the
    early return of [processIncludes] skips a loop that would copy every
    line. *)
Lemma no_marker_no_directive (content line : string) :
  Contains content "@include" = false →
  line ∈ Split content LF → includeRegex line = None.
Proof.
  intros Hnone [a [b ->]]%Split_line_within.
  destruct (includeRegex line) as [path|] eqn:Hre; [|done].
  apply includeRegex_Contains in Hre.
  by rewrite (Contains_within a line b) in Hnone.
Qed.

Lemma directive_has_marker (content line includeFile : string) :
  line ∈ Split content LF →
  includeRegex line = Some includeFile →
  Contains content "@include" = true.
Proof.
  intros Hin Hline. destruct (Contains content "@include") eqn:Hmarker; [done|].
  by rewrite (no_marker_no_directive content line Hmarker Hin) in Hline.
Qed.

(** ** The resolver's loop and its fuel *)

Section ResolverFacts.

Variable Abs : string → option string.
Variable Dir : string → string.
Variable JoinPath : string → string → string.
Variable ReadFile : string → option string.

Lemma processLines_app recurse filename (before after result : list string) included :
  processLines Dir JoinPath recurse filename (before ++ after) result included =
    match processLines Dir JoinPath recurse filename before result included with
    | (included', Ok result') =>
        processLines Dir JoinPath recurse filename after result' included'
    | other => other
    end.
Proof.
  revert result included.
  induction before as [|line before IH]; intros result included; [done|].
  cbn. destruct (includeRegex line) as [includeFile|]; [|apply IH].
  destruct (recurse _ included) as [included' [content|err|]]; [apply IH|done..].
Qed.

(** Lines that the pattern does not match are copied, and nothing is
    read for them. *)
Lemma processLines_plain recurse filename (lines result : list string) included :
  Forall (λ line, includeRegex line = None) lines →
  processLines Dir JoinPath recurse filename lines result included
  = (included, Ok (result ++ lines)%list).
Proof.
  intros Hplain. revert result.
  induction Hplain as [|line lines Hline _ IH]; intros result; cbn.
  - by rewrite (right_id_L [] app).
  - by rewrite Hline, IH, <- (assoc_L app).
Qed.

(** A result that was reached with some fuel is reached with any more. *)
Lemma processLines_agree recurse recurse' filename lines result included
    included' (r : Result (list string)) :
  (∀ f inc inc' (r : Result string),
     recurse f inc = (inc', r) → r ≠ OutOfFuel → recurse' f inc = (inc', r)) →
  processLines Dir JoinPath recurse filename lines result included = (included', r) →
  r ≠ OutOfFuel →
  processLines Dir JoinPath recurse' filename lines result included = (included', r).
Proof.
  intros Hrec. revert result included.
  induction lines as [|line lines IH]; intros result included; [done|].
  cbn. destruct (includeRegex line) as [includeFile|]; [|apply IH].
  destruct (recurse _ included) as [inc1 r1] eqn:Hcall.
  destruct r1 as [content|err|].
  - rewrite (Hrec _ _ _ _ Hcall) by done. apply IH.
  - rewrite (Hrec _ _ _ _ Hcall) by done. done.
  - by intros [= <- <-].
Qed.

Lemma processIncludes_more_fuel (fuel fuel' : nat) filename included included'
    (r : Result string) :
  (fuel ≤ fuel')%nat →
  processIncludes Abs Dir JoinPath ReadFile fuel filename included = (included', r) →
  r ≠ OutOfFuel →
  processIncludes Abs Dir JoinPath ReadFile fuel' filename included = (included', r).
Proof.
  revert fuel' filename included included' r.
  induction fuel as [|fuel IH]; intros fuel' filename included included' r Hle.
  { by intros [= <- <-]. }
  destruct fuel' as [|fuel']; [lia|]. cbn.
  destruct (Abs filename) as [absPath|]; [|done].
  destruct (visited included absPath); [done|].
  destruct (ReadFile filename) as [content|]; [|done].
  destruct (negb (Contains content "@include")); [done|].
  destruct (processLines _ _ (processIncludes _ _ _ _ fuel) _ _ _ _)
    as [inc1 r1] eqn:Hlines.
  intros Hr Hfuel.
  assert (r1 ≠ OutOfFuel) as Hr1.
  { intros ->. by injection Hr as <- <-. }
  rewrite (processLines_agree _ (processIncludes Abs Dir JoinPath ReadFile fuel')
             _ _ _ _ _ _ (λ f inc inc' r, IH fuel' f inc inc' r ltac:(lia)) Hlines Hr1).
  done.
Qed.

Lemma visited_insert (included : gmap string bool) (absPath a : string) :
  visited (<[absPath := true]> included) a
  = bool_decide (absPath = a) || visited included a.
Proof.
  unfold visited. rewrite lookup_insert.
  by destruct (decide (absPath = a)); [rewrite bool_decide_true|rewrite bool_decide_false].
Qed.

Lemma isCircular_wrapped (includeFile : string) (err : IncludeError) :
  isCircular (IncludeFailed includeFile err) = isCircular err.
Proof. reflexivity. Qed.

(** C8: a file whose text has no line that is an inclusion directive
    resolves to its text, unchanged (whether or not the marker occurs in
    it). *)
Theorem no_directive_identity (fuel : nat) (filename absPath content : string)
    (included : gmap string bool) :
  Abs filename = Some absPath →
  visited included absPath = false →
  ReadFile filename = Some content →
  (∀ line, line ∈ Split content LF → includeRegex line = None) →
  processIncludes Abs Dir JoinPath ReadFile (S fuel) filename included
  = (<[absPath := true]> included, Ok content).
Proof.
  intros Habs Hnew Hread Hplain. cbn. rewrite Habs, Hnew, Hread.
  destruct (negb (Contains content "@include")); [done|].
  rewrite processLines_plain by (by apply Forall_forall).
  cbn. by rewrite Join_Split.
Qed.

(** A file is in the visited set before its lines are processed: a
    directive that names the file it stands in is refused. *)
Lemma self_include_refused (fuel : nat)
    (filename absPath content line includeFile : string)
    (before after : list string) (included : gmap string bool) :
  (0 < fuel)%nat →
  Abs filename = Some absPath →
  visited included absPath = false →
  ReadFile filename = Some content →
  Split content LF = (before ++ line :: after)%list →
  Forall (λ l, includeRegex l = None) before →
  includeRegex line = Some includeFile →
  Abs (JoinPath (Dir filename) includeFile) = Some absPath →
  processIncludes Abs Dir JoinPath ReadFile (S fuel) filename included
  = (<[absPath := true]> included,
     Err (IncludeFailed includeFile
            (CircularInclude (JoinPath (Dir filename) includeFile)))).
Proof.
  intros Hfuel Habs Hnew Hread Hsplit Hbefore Hline Hback.
  cbn. rewrite Habs, Hnew, Hread.
  rewrite (directive_has_marker content line includeFile)
    by (done || rewrite Hsplit; set_solver).
  cbn. rewrite Hsplit, processLines_app, processLines_plain by done.
  cbn. rewrite Hline.
  destruct fuel as [|fuel]; [lia|]. cbn.
  by rewrite Hback, visited_insert, bool_decide_true.
Qed.

(** C5: a path whose absolute path is in the visited set is refused with
    the circular-include error as soon as it is entered, whatever the
    file holds; and a traversal that comes to such a path, the set
    holding every file entered so far, fails as a whole with that error
    at its root and returns no text. *)
Theorem cycle_detected :
  (∀ (fuel : nat) (filename absPath : string) (included : gmap string bool),
     Abs filename = Some absPath →
     visited included absPath = true →
     processIncludes Abs Dir JoinPath ReadFile (S fuel) filename included
     = (included, Err (CircularInclude filename))) ∧
  (∀ (filename : string) (included : gmap string bool),
     ReachesVisited Abs Dir JoinPath ReadFile filename included →
     ∃ fuel0, ∀ fuel, (fuel0 ≤ fuel)%nat →
       ∃ included' err,
         processIncludes Abs Dir JoinPath ReadFile fuel filename included
         = (included', Err err) ∧
         isCircular err = true).
Proof.
  assert (∀ (fuel : nat) (filename absPath : string) (included : gmap string bool),
     Abs filename = Some absPath →
     visited included absPath = true →
     processIncludes Abs Dir JoinPath ReadFile (S fuel) filename included
     = (included, Err (CircularInclude filename))) as Hhere.
  { intros fuel filename absPath included Habs Hseen. cbn. by rewrite Habs, Hseen. }
  split; [done|].
  intros filename included Hreach.
  induction Hreach as
    [filename absPath included Habs Hseen
    |filename absPath included content before line after includeFile fuelB
       included' result Habs Hnew Hread Hsplit Hbefore Hline _ [fuelT IH]].
  - exists 1%nat. intros [|fuel] Hfuel; [lia|].
    eexists _, _. split; [by eapply Hhere|done].
  - exists (S (fuelB `max` fuelT)). intros [|fuel] Hfuel; [lia|].
    destruct (IH fuel ltac:(lia)) as (includedT & err & Htarget & Hcirc).
    exists includedT, (IncludeFailed includeFile err).
    split; [|done]. cbn. rewrite Habs, Hnew, Hread.
    rewrite (directive_has_marker content line includeFile)
      by (done || rewrite Hsplit; set_solver).
    cbn. rewrite Hsplit, processLines_app.
    rewrite (processLines_agree _ (processIncludes Abs Dir JoinPath ReadFile fuel)
               _ _ _ _ _ _
               (λ f inc inc' r, processIncludes_more_fuel fuelB fuel f inc inc' r
                                  ltac:(lia)) Hbefore) by done.
    cbn. by rewrite Hline, Htarget.
Qed.

(** *** The visited set only grows *)

Lemma processLines_visited_mono recurse filename lines result included included'
    (r : Result (list string)) :
  (∀ f inc inc' (r : Result string), recurse f inc = (inc', r) →
     ∀ a, visited inc a = true → visited inc' a = true) →
  processLines Dir JoinPath recurse filename lines result included = (included', r) →
  ∀ a, visited included a = true → visited included' a = true.
Proof.
  intros Hrec. revert result included.
  induction lines as [|line lines IH]; intros result included; cbn.
  { by intros [= <- <-]. }
  destruct (includeRegex line) as [includeFile|]; [|apply IH].
  destruct (recurse _ included) as [inc1 r1] eqn:Hcall.
  destruct r1 as [content|err|].
  - intros Hrest a Ha. by eapply IH, Hrec.
  - intros [= <- <-] a Ha. by eapply Hrec.
  - intros [= <- <-] a Ha. by eapply Hrec.
Qed.

Lemma processIncludes_visited_mono (fuel : nat) filename included included'
    (r : Result string) :
  processIncludes Abs Dir JoinPath ReadFile fuel filename included = (included', r) →
  ∀ a, visited included a = true → visited included' a = true.
Proof.
  revert filename included included' r.
  induction fuel as [|fuel IH]; intros filename included included' r; cbn.
  { by intros [= <- <-]. }
  destruct (Abs filename) as [absPath|]; [|by intros [= <- <-]].
  destruct (visited included absPath) eqn:Hseen; [by intros [= <- <-]|].
  assert (∀ a, visited included a = true
               → visited (<[absPath := true]> included) a = true) as Hins.
  { intros a Ha. rewrite visited_insert, Ha. apply orb_true_r. }
  destruct (ReadFile filename) as [content|]; [|by intros [= <- <-]].
  destruct (negb (Contains content "@include")); [by intros [= <- <-]|].
  destruct (processLines _ _ _ _ _ _ _) as [inc1 r1] eqn:Hlines.
  intros Hr a Ha.
  assert (included' = inc1) as -> by (by destruct r1; injection Hr as <- _).
  eapply processLines_visited_mono; [apply IH|apply Hlines|by apply Hins].
Qed.

(** A file that has been resolved is in the visited set from then on. *)
Lemma processIncludes_Ok_visited (fuel : nat) filename included included'
    (out : string) :
  processIncludes Abs Dir JoinPath ReadFile fuel filename included
  = (included', Ok out) →
  ∃ absPath, Abs filename = Some absPath ∧ visited included' absPath = true.
Proof.
  intros Hrun. destruct fuel as [|fuel]; [done|]. cbn in Hrun.
  destruct (Abs filename) as [absPath|]; [|done].
  destruct (visited included absPath) eqn:Hseen; [done|].
  exists absPath. split; [done|].
  destruct (ReadFile filename) as [content|]; [|done].
  assert (visited (<[absPath := true]> included) absPath = true) as Hin.
  { rewrite visited_insert, bool_decide_true by done. done. }
  destruct (negb (Contains content "@include")).
  { by injection Hrun as <- _. }
  destruct (processLines _ _ _ _ _ _ _) as [inc1 r1] eqn:Hlines.
  assert (included' = inc1) as -> by (by destruct r1; injection Hrun as <- _).
  eapply processLines_visited_mono;
    [apply processIncludes_visited_mono|apply Hlines|done].
Qed.

(** C4, as the code has it: the visited set is one for the whole
    traversal and never loses a path, so a file that has been resolved
    once is refused as a circular include wherever it is named again in
    the same traversal, on the recursion chain or in a sibling branch. *)
Theorem second_visit_refused (fuel fuel' : nat) (first again out : string)
    (included included1 included2 : gmap string bool) :
  processIncludes Abs Dir JoinPath ReadFile fuel first included
  = (included1, Ok out) →
  Abs again = Abs first →
  (∀ a, visited included1 a = true → visited included2 a = true) →
  (∀ a, visited included a = true → visited included1 a = true) ∧
  processIncludes Abs Dir JoinPath ReadFile (S fuel') again included2
  = (included2, Err (CircularInclude again)).
Proof.
  intros Hrun Hsame Hlater. split.
  - by eapply processIncludes_visited_mono.
  - apply processIncludes_Ok_visited in Hrun as (absPath & Habs & Hseen).
    cbn. by rewrite Hsame, Habs, (Hlater _ Hseen).
Qed.

(** *** Line by line *)

Lemma processLines_Splices recurse filename lines result included included'
    (result' : list string) :
  processLines Dir JoinPath recurse filename lines result included
  = (included', Ok result') ↔
  ∃ pieces, result' = (result ++ pieces)%list ∧
    Splices Dir JoinPath recurse filename lines included pieces included'.
Proof.
  split.
  - revert result included.
    induction lines as [|line lines IH]; intros result included; cbn.
    + intros [= <- <-]. exists []. split; [by rewrite (right_id_L [] app)|constructor].
    + destruct (includeRegex line) as [includeFile|] eqn:Hline.
      * destruct (recurse _ included) as [inc1 [content|err|]] eqn:Hcall; [|done..].
        intros (pieces & -> & Hpieces)%IH. exists (content :: pieces).
        split; [by rewrite <- (assoc_L app)|]. by econstructor.
      * intros (pieces & -> & Hpieces)%IH. exists (line :: pieces).
        split; [by rewrite <- (assoc_L app)|]. by constructor.
  - intros (pieces & -> & Hpieces). revert result.
    induction Hpieces as
      [included
      |line lines included pieces included' Hline _ IH
      |line lines included includeFile content included1 pieces included'
         Hline Hcall _ IH]; intros result; cbn.
    + by rewrite (right_id_L [] app).
    + by rewrite Hline, IH, <- (assoc_L app).
    + by rewrite Hline, Hcall, IH, <- (assoc_L app).
Qed.

Lemma Splices_plain recurse filename lines included pieces included' :
  Forall (λ line, includeRegex line = None) lines →
  Splices Dir JoinPath recurse filename lines included pieces included' ↔
  pieces = lines ∧ included' = included.
Proof.
  intros Hplain. split.
  - induction 1 as [|line lines included pieces included' Hline _ IH|];
      [done| |].
    + apply Forall_cons in Hplain as [_ Hplain].
      by destruct (IH Hplain) as [-> ->].
    + apply Forall_cons in Hplain as [Hnone _]. congruence.
  - intros [-> ->]. induction Hplain; by constructor.
Qed.

(** C6, as the code has it: the lines replaced are those that begin,
    after optional white space, with the marker, white space and a
    double-quoted path that is not empty, whatever follows the closing
    quote; each is replaced by the resolved text of the file the path
    names relative to the directory of the current file.  Every other
    line is copied as it is.  A file resolves exactly when it is readable,
    not visited before, and each of its directives resolves in turn. *)
Theorem directive_lines_replaced :
  (∀ line path,
     includeRegex line = Some path ↔ ∃ rest, directiveShape line path rest) ∧
  (∀ (fuel : nat) (filename out : string) (included included' : gmap string bool),
     processIncludes Abs Dir JoinPath ReadFile (S fuel) filename included
     = (included', Ok out) ↔
     ∃ absPath content pieces,
       Abs filename = Some absPath ∧
       visited included absPath = false ∧
       ReadFile filename = Some content ∧
       Splices Dir JoinPath (processIncludes Abs Dir JoinPath ReadFile fuel)
         filename (Split content LF) (<[absPath := true]> included)
         pieces included' ∧
       out = Join pieces (String LF "")).
Proof.
  split; [apply includeRegex_spec|].
  intros fuel filename out included included'. cbn. split.
  - destruct (Abs filename) as [absPath|]; [|done].
    destruct (visited included absPath) eqn:Hnew; [done|].
    destruct (ReadFile filename) as [content|]; [|done].
    destruct (Contains content "@include") eqn:Hmarker; cbn.
    + destruct (processLines _ _ _ _ _ _ _) as [inc1 [result|err|]] eqn:Hlines; [|done..].
      intros [= <- <-].
      apply processLines_Splices in Hlines as (pieces & -> & Hpieces).
      exists absPath, content, pieces. by split_and!.
    + intros [= <- <-]. exists absPath, content, (Split content LF).
      split_and!; [done..| |by rewrite Join_Split].
      apply Splices_plain; [|done].
      apply Forall_forall. intros line Hin.
      by apply (no_marker_no_directive content).
  - intros (absPath & content & pieces & -> & -> & -> & Hpieces & ->).
    destruct (Contains content "@include") eqn:Hmarker; cbn.
    + assert (processLines Dir JoinPath (processIncludes Abs Dir JoinPath ReadFile fuel)
                filename (Split content LF) [] (<[absPath := true]> included)
              = (included', Ok pieces)) as ->; [|done].
      apply processLines_Splices. by exists pieces.
    + apply Splices_plain in Hpieces as [-> ->].
      * by rewrite Join_Split.
      * apply Forall_forall. intros line Hin.
        by apply (no_marker_no_directive content).
Qed.

End ResolverFacts.

(** ** The claims on concrete documents and files *)

Import Example.

Lemma lastChar_app (a b : string) : b ≠ "" → lastChar (a ++ b) = lastChar b.
Proof.
  intros Hb. induction a as [|c a IH]; [done|].
  rewrite app_cons. cbn. rewrite IH.
  destruct (a ++ b) eqn:Hab; [|done]. by destruct a, b.
Qed.

(** A line that is a directive in the specification's words ends with the
    closing quote. *)
Lemma specDirective_lastChar (line path : string) :
  specDirective line path → lastChar line = Some DQUOTE.
Proof.
  intros [indent [gap (_ & _ & _ & _ & _ & ->)]].
  rewrite lastChar_app by done.
  rewrite lastChar_app by (by destruct gap).
  rewrite lastChar_app by done.
  change (String DQUOTE (path ++ String DQUOTE ""))
    with (String DQUOTE path ++ String DQUOTE "").
  by rewrite lastChar_app.
Qed.

Lemma children_give_object_witness :
  (∃ obj, convertNodeToValue argNames bare = GoMap obj) ∧
  is_scalar (convertNodeToValue argNames bare) = false ∧
  is_array (convertNodeToValue argNames bare) = false.
Proof. apply (children_give_object argNames bare). discriminate. Defined.

Lemma siblings_grouped_witness :
  convertKDLToJSON argNames document !! "item"
  = Some (GoSlice (convertNodeToValue argNames <$> [sword; shield; potion])) ∧
  convertKDLToJSON argNames document !! "scene"
  = Some (convertNodeToValue argNames scene) ∧
  ∃ obj, convertNodeToValue argNames crowded = GoMap obj ∧
    obj !! "x" = Some (GoSlice [GoString "c1"; GoNil]) ∧
    obj !! "z" = Some GoNil.
Proof.
  destruct (siblings_grouped argNames "item") as [Hitem _].
  destruct (siblings_grouped argNames "scene") as [Hscene _].
  destruct (siblings_grouped argNames "x") as [_ Hx].
  destruct (siblings_grouped argNames "z") as [_ Hz].
  split; [|split].
  - destruct (Hitem document) as [_ Hmany]. apply Hmany. vm_compute. lia.
  - destruct (Hscene document) as [Hone _]. by apply (Hone scene).
  - destruct (Hx crowded) as (obj & Hobj & _ & Hmany); [discriminate|].
    destruct (Hz crowded) as (obj' & Hobj' & Hone & _); [discriminate|].
    assert (obj' = obj) as -> by congruence.
    exists obj. split; [done|]. split.
    + apply Hmany. vm_compute. lia.
    + by apply (Hone (leaf "z" [])).
Defined.

Lemma leaf_shapes_witness :
  convertNodeToValue argNames (leaf "title" [Some (VString "Main")]) = GoString "Main" ∧
  convertNodeToValue argNames (leaf "size" [Some (VInt64 3); Some (VInt64 4)])
  = GoSlice [GoInt64 3; GoInt64 4] ∧
  convertNodeToValue argNames (leaf "empty" []) = GoNil.
Proof.
  split; [|split].
  - destruct (leaf_shapes argNames (leaf "title" [Some (VString "Main")])
                eq_refl eq_refl) as (Hone & _ & _).
    by destruct (Hone _ eq_refl).
  - destruct (leaf_shapes argNames (leaf "size" [Some (VInt64 3); Some (VInt64 4)])
                eq_refl eq_refl) as (_ & Hmany & _).
    apply Hmany. cbn. lia.
  - destruct (leaf_shapes argNames (leaf "empty" []) eq_refl eq_refl)
      as (_ & _ & Hnone).
    by apply Hnone.
Defined.

Lemma later_insertion_wins_witness :
  ∃ obj, convertNodeToValue argNamesX crowded = GoMap obj ∧
    obj !! "x" = Some (GoSlice [GoString "c1"; GoNil]) ∧
    obj !! "y" = Some GoNil ∧
    obj !! "arg2" = Some (GoInt64 3) ∧
    obj !! "arg1" = None.
Proof.
  destruct (later_insertion_wins argNamesX crowded)
    as (obj & Hobj & Hchild & Hprop & Harg & Hnone); [discriminate|].
  exists obj. split; [done|]. split; [|split; [|split]].
  - by apply (Hchild "x").
  - by apply (Hprop "y" (Some VNil)).
  - apply (Harg 1%nat (Some (VInt64 3))); [done..|].
    intros j Hj. cbn in Hj. lia.
  - apply (Hnone "arg1"); [done..|].
    intros [|[|i]] Hi; [done|done|cbn in Hi; lia].
Defined.

Lemma value_depends_on_own_fields_witness :
  convertNodeToValue argNames (leaf "width" [Some (VInt64 3)])
  = convertNodeToValue argNames (leaf "height" [Some (VInt64 3)]) ∧
  ∃ v, convertKDLToJSON argNames document !! "item" = Some v ∧
    (v = convertNodeToValue argNames shield ∨
     ∃ elems, v = GoSlice elems ∧ convertNodeToValue argNames shield ∈ elems).
Proof.
  destruct (value_depends_on_own_fields argNames) as [Hown Hsiblings].
  split.
  - by apply Hown.
  - apply (Hsiblings document shield). unfold document. set_solver.
Defined.

Lemma no_directive_identity_witness :
  processIncludes Abs Dir JoinPath (ReadFile commented) 1 "plain.kdl" ∅
  = (<["plain.kdl" := true]> ∅, Ok (lines ["// no @include here"; "node 1"; ""])).
Proof.
  apply (no_directive_identity Abs Dir JoinPath (ReadFile commented) 0
           "plain.kdl" "plain.kdl"); [done..|].
  intros line Hin. vm_compute in Hin.
  repeat (apply elem_of_cons in Hin as [->|Hin]; [done|]).
  by apply elem_of_nil in Hin.
Defined.

Lemma cycle_detected_witness :
  ∃ fuel0, ∀ fuel, (fuel0 ≤ fuel)%nat →
    ∃ included' err,
      processIncludes Abs Dir JoinPath (ReadFile circular) fuel "file1.kdl" ∅
      = (included', Err err) ∧
      isCircular err = true.
Proof.
  destruct (cycle_detected Abs Dir JoinPath (ReadFile circular)) as [_ Hcycle].
  apply Hcycle.
  eapply (reach_include _ _ _ _ "file1.kdl" "file1.kdl" ∅ _ [] _ _ _ 0);
    [reflexivity..|].
  eapply (reach_include _ _ _ _ "file2.kdl" "file2.kdl" _ _ [] _ _ _ 0);
    [reflexivity..|].
  by eapply (reach_here _ _ _ _ "file1.kdl" "file1.kdl").
Defined.

Lemma second_visit_refused_witness :
  processIncludes Abs Dir JoinPath (ReadFile diamond) 1 "shared.kdl"
    (<["shared.kdl" := true]> ∅)
  = (<["shared.kdl" := true]> ∅, Err (CircularInclude "shared.kdl")).
Proof.
  by apply (second_visit_refused Abs Dir JoinPath (ReadFile diamond) 1 0
              "shared.kdl" "shared.kdl" "shared 0" ∅ (<["shared.kdl" := true]> ∅)).
Defined.

Lemma directive_lines_replaced_witness :
  ∃ absPath content pieces,
    Abs "main.kdl" = Some absPath ∧
    visited ∅ absPath = false ∧
    ReadFile trailing "main.kdl" = Some content ∧
    Splices Dir JoinPath (processIncludes Abs Dir JoinPath (ReadFile trailing) 1)
      "main.kdl" (Split content LF) (<[absPath := true]> ∅) pieces
      (<["a.kdl" := true]> (<["main.kdl" := true]> ∅)) ∧
    "x 1" = Join pieces (String LF "").
Proof.
  destruct (directive_lines_replaced Abs Dir JoinPath (ReadFile trailing))
    as [_ Hlines].
  by apply (Hlines 1%nat "main.kdl" "x 1" ∅).
Defined.

(** C4 on the diamond: no absolute path repeats on any chain of files
    being expanded, each branch resolves on its own, and the traversal
    from [main.kdl] is refused at the second visit of [shared.kdl]. *)
Lemma diamond_refused :
  repeatsOnChain Abs Dir JoinPath (ReadFile diamond) 8 [] "main.kdl" = false ∧
  (processIncludes Abs Dir JoinPath (ReadFile diamond) 8 "left.kdl" ∅).2
  = Ok (lines ["shared 0"; "left 1"]) ∧
  (processIncludes Abs Dir JoinPath (ReadFile diamond) 8 "right.kdl" ∅).2
  = Ok (lines ["shared 0"; "right 2"]) ∧
  (processIncludes Abs Dir JoinPath (ReadFile diamond) 8 "main.kdl" ∅).2
  = Err (IncludeFailed "right.kdl"
           (IncludeFailed "shared.kdl" (CircularInclude "shared.kdl"))).
Proof. repeat split; vm_compute; reflexivity. Qed.

(** C6 on a directive with trailing text: the one line of [main.kdl] is
    not a directive in the specification's words, yet it is replaced, and
    the text after the closing quote is lost. *)
Lemma trailing_text_replaced :
  Split trailingLine LF = [trailingLine] ∧
  (∀ path, ¬ specDirective trailingLine path) ∧
  (processIncludes Abs Dir JoinPath (ReadFile trailing) 2 "main.kdl" ∅).2
  = Ok "x 1".
Proof.
  split; [done|]. split; [|done].
  by intros path Hspec%specDirective_lastChar.
Qed.

(** ** The examples of the README and of the test suite *)

Example readme_item :
  convertNodeToValue argNames sword
  = GoMap {[ "arg1" := GoString "sword"; "arg2" := GoString "weapon";
             "damage" := GoInt64 10 ]}.
Proof. vm_compute. reflexivity. Qed.

Example readme_scene :
  convertNodeToValue argNames scene
  = GoMap {[ "arg1" := GoString "GameScene";
             "player" := GoMap {[ "arg1" := GoString "hero"; "level" := GoInt64 5 ]} ]}.
Proof. vm_compute. reflexivity. Qed.

Example readme_custom_names :
  convertNodeToValue argNamesTyped sword
  = GoMap {[ "type" := GoString "sword"; "category" := GoString "weapon";
             "damage" := GoInt64 10 ]}.
Proof. vm_compute. reflexivity. Qed.

Example test_empty_braces : convertNodeToValue argNames emptyBraces = GoString "Main".
Proof. reflexivity. Qed.

Example sixth_argument_name : getArgName argNames 6 = "arg6".
Proof. reflexivity. Qed.

Example test_basic_include :
  (processIncludes Abs Dir JoinPath (ReadFile basicInclude) 2 "main.kdl" ∅).2
  = Ok (lines ["config {"; "    version " ++ q "1.0"; "}"; "";
               "scene " ++ q "TestScene" ++ " {}"]).
Proof. vm_compute. reflexivity. Qed.

Example test_simple_circular_reference :
  (processIncludes Abs Dir JoinPath (ReadFile circular) 3 "file1.kdl" ∅).2
  = Err (IncludeFailed "file2.kdl"
           (IncludeFailed "file1.kdl" (CircularInclude "file1.kdl"))).
Proof. vm_compute. reflexivity. Qed.

Example test_self_include :
  (processIncludes Abs Dir JoinPath (ReadFile selfInclude) 2 "self.kdl" ∅).2
  = Err (IncludeFailed "self.kdl" (CircularInclude "self.kdl")).
Proof. vm_compute. reflexivity. Qed.

(** * Further properties of the transcoder *)

Local Set Warnings "-clear-no-such-hyp".

Section TranscoderMore.

Variable argNameMap : gmap Z string.

(** The second case of the cascade: no children, at least one property. *)
Lemma convertNodeToValue_properties (node : Node) :
  Children node = [] →
  Properties node ≠ ∅ →
  convertNodeToValue argNameMap node =
    GoMap (range_assign convertValue (Properties node)
             (assignArguments argNameMap 0 (Arguments node) ∅)).
Proof.
  intros Hch Hprops. rewrite convertNodeToValue_unfold. unfold convertNodeBody.
  rewrite Hch. cbn [length]. rewrite decide_False by lia.
  apply map_size_non_empty_iff in Hprops.
  rewrite decide_True by lia. by rewrite assignArguments_guard.
Qed.

(** A node that has children or properties converts to the map that the
    loops leave, the child loop adding nothing when there is no child. *)
Lemma convertNodeToValue_objectOf (node : Node) :
  Children node ≠ [] ∨ Properties node ≠ ∅ →
  convertNodeToValue argNameMap node = GoMap (objectOf argNameMap node).
Proof.
  destruct (Children node) as [|child rest] eqn:Hch.
  - intros [?|Hprops]; [done|].
    rewrite (convertNodeToValue_properties _ Hch Hprops).
    unfold objectOf, range_assign at 1. by rewrite Hch.
  - intros _. apply convertNodeToValue_object. by rewrite Hch.
Qed.

(** X3: a node without children and with at least one property converts to
    a map that holds each property under its name, each argument under its
    positional key unless a property or a later argument has that key, and
    nothing else. *)
Theorem properties_object (node : Node) :
  Children node = [] →
  Properties node ≠ ∅ →
  ∃ obj, convertNodeToValue argNameMap node = GoMap obj ∧
    (∀ k v, Properties node !! k = Some v → obj !! k = Some (convertValue v)) ∧
    (∀ i arg, Arguments node !! i = Some arg →
       let k := getArgName argNameMap (Z.of_nat i + 1) in
       Properties node !! k = None →
       (∀ j, (i < j < length (Arguments node))%nat →
             getArgName argNameMap (Z.of_nat j + 1) ≠ k) →
       obj !! k = Some (convertValue arg)) ∧
    (∀ k, Properties node !! k = None →
       (∀ i, (i < length (Arguments node))%nat →
             getArgName argNameMap (Z.of_nat i + 1) ≠ k) →
       obj !! k = None).
Proof.
  intros Hch Hprops. eexists. split; [by apply convertNodeToValue_properties|].
  split; [|split].
  - intros k v Hk. by rewrite range_assign_lookup, Hk.
  - intros i arg Harg. cbn zeta. intros Hk Hlater.
    rewrite range_assign_lookup, Hk.
    by apply (assignArguments_lookup_last argNameMap 0).
  - intros k Hk Hargs. rewrite range_assign_lookup, Hk.
    by rewrite (assignArguments_lookup_other argNameMap 0).
Qed.

Lemma assignArguments_scalars (start : nat) (arguments : list (option Value))
    (obj : gmap string GoValue) :
  map_Forall (λ _ e, is_scalar e = true) obj →
  map_Forall (λ _ e, is_scalar e = true)
    (assignArguments argNameMap start arguments obj).
Proof.
  revert start obj. induction arguments as [|arg rest IH]; intros start obj Hobj; [done|].
  cbn. apply IH. apply map_Forall_insert_2; [apply convertValue_scalar|done].
Qed.

(** X4: a node without children converts to a value without nesting: a
    scalar, a slice of scalars or a map of scalars.  Nesting in the output
    comes from child nodes only. *)
Theorem childless_is_flat (node : Node) :
  Children node = [] → is_flat (convertNodeToValue argNameMap node).
Proof.
  intros Hch. destruct (decide (Properties node = ∅)) as [Hprops|Hprops].
  - rewrite (convertNodeToValue_leaf _ _ Hch Hprops).
    destruct (Arguments node) as [|a [|b rest]]; cbn; [done| |].
    + pose proof (convertValue_scalar a) as Ha.
      by destruct (convertValue a).
    + do 2 (constructor; [apply convertValue_scalar|]).
      apply Forall_forall. intros v (arg & -> & _)%list_elem_of_fmap.
      apply convertValue_scalar.
  - rewrite (convertNodeToValue_properties _ Hch Hprops). cbn.
    intros k v. rewrite range_assign_lookup.
    destruct (Properties node !! k) as [value|].
    + intros [= <-]. apply convertValue_scalar.
    + apply (assignArguments_scalars 0 (Arguments node) ∅). apply map_Forall_empty.
Qed.

(** *** The keys of the output *)

Lemma groupByKey_dom {A} (key : A → string) (xs : list A) :
  dom (groupByKey key xs) =@{gset string} list_to_set (key <$> xs).
Proof.
  apply set_eq. intros k.
  rewrite elem_of_dom, groupByKey_lookup, elem_of_list_to_set, list_elem_of_fmap.
  split.
  - destruct (filter _ xs) as [|x group] eqn:Hgroup; [by intros [? ?]|]. intros _.
    assert (x ∈ filter (λ y, key y = k) xs) as Hx by (rewrite Hgroup; by left).
    apply list_elem_of_filter in Hx as [Hkey Hin]. eauto.
  - intros (x & -> & Hin).
    assert (x ∈ filter (λ y, key y = key x) xs) as Hx
      by (by apply list_elem_of_filter).
    destruct (filter _ xs); [by apply elem_of_nil in Hx|done].
Qed.

Lemma range_assign_dom {A B} (f : A → B) (m : gmap string A) (obj : gmap string B) :
  dom (range_assign f m obj) =@{gset string} dom m ∪ dom obj.
Proof. by rewrite range_assign_union, dom_union_L, dom_fmap_L. Qed.

Lemma assignArguments_dom (start : nat) (arguments : list (option Value))
    (obj : gmap string GoValue) :
  dom (assignArguments argNameMap start arguments obj)
  =@{gset string} list_to_set (argumentKeys argNameMap start arguments) ∪ dom obj.
Proof.
  revert start obj. induction arguments as [|arg rest IH]; intros start obj; cbn.
  - set_solver.
  - rewrite IH, dom_insert_L. set_solver.
Qed.

(** X5: the keys of the root object are the names of the top-level nodes:
    every name is a key and there is no other key. *)
Theorem root_keys (nodes : list Node) :
  dom (convertKDLToJSON argNameMap nodes) =@{gset string} list_to_set (Name <$> nodes).
Proof.
  unfold convertKDLToJSON. rewrite range_assign_dom, groupByKey_dom. set_solver.
Qed.

(** X6: the keys of the map of a node with children or properties are its
    positional argument keys, its property names and the names of its
    children, and no other. *)
Theorem object_keys (node : Node) :
  Children node ≠ [] ∨ Properties node ≠ ∅ →
  ∃ obj, convertNodeToValue argNameMap node = GoMap obj ∧
    dom obj =@{gset string}
      list_to_set (argumentKeys argNameMap 0 (Arguments node))
      ∪ dom (Properties node)
      ∪ list_to_set (Name <$> Children node).
Proof.
  intros Hshape. eexists. split; [by apply convertNodeToValue_objectOf|].
  unfold objectOf.
  rewrite !range_assign_dom, groupByKey_dom, assignArguments_dom. set_solver.
Qed.

(** X7: the map of a node does not depend on the order in which the two
    map-ranging loops visit the properties and the child groups. *)
Theorem map_order_irrelevant (node : Node)
    (propertyOrder : list (string * option Value))
    (groupOrder : list (string * list Node)) :
  Children node ≠ [] →
  propertyOrder ≡ₚ map_to_list (Properties node) →
  groupOrder ≡ₚ map_to_list (groupByKey Name (Children node)) →
  convertNodeToValue argNameMap node =
    GoMap (range_assign_in (convertGroup (convertNodeToValue argNameMap)) groupOrder
             (range_assign_in convertValue propertyOrder
                (assignArguments argNameMap 0 (Arguments node) ∅))).
Proof.
  intros Hch Hprops Hgroups.
  rewrite (range_assign_any_order _ _ _ _ Hprops).
  rewrite (range_assign_any_order _ _ _ _ Hgroups).
  by apply convertNodeToValue_object.
Qed.

End TranscoderMore.

(** ** Argument names *)

Lemma getArgName_default (index : Z) :
  getArgName defaultArgNameMap index = "arg" +:+ pretty index.
Proof.
  unfold getArgName, defaultArgNameMap.
  repeat (rewrite lookup_insert; case_decide; [by subst index|]).
  rewrite lookup_singleton. by case_decide; [subst index|].
Qed.

(** X1: without flags, position [i] is named [arg] followed by the decimal
    form of [i], at every position, so two positions never share a key. *)
Theorem default_names_distinct :
  (∀ i, getArgName defaultArgNameMap i = "arg" +:+ pretty i) ∧
  (∀ i j, getArgName defaultArgNameMap i = getArgName defaultArgNameMap j → i = j).
Proof.
  split; [apply getArgName_default|].
  intros i j. rewrite !getArgName_default.
  intros Hij%(inj (String.app "arg")). by apply (inj pretty).
Qed.

(** X2: without flags, no argument of a node with children or properties is
    lost to another argument: the argument at position [i] (0-based) is in
    the map under [arg] followed by [i+1], unless a property or a child
    bears that very name. *)
Theorem default_names_keep_arguments (node : Node) (i : nat) (arg : option Value) :
  Children node ≠ [] ∨ Properties node ≠ ∅ →
  Arguments node !! i = Some arg →
  filter (λ c, Name c = "arg" +:+ pretty (Z.of_nat i + 1)%Z) (Children node) = [] →
  Properties node !! ("arg" +:+ pretty (Z.of_nat i + 1)%Z) = None →
  ∃ obj, convertNodeToValue defaultArgNameMap node = GoMap obj ∧
    obj !! ("arg" +:+ pretty (Z.of_nat i + 1)%Z) = Some (convertValue arg).
Proof.
  intros Hshape Harg Hchild Hprop. eexists.
  split; [by apply convertNodeToValue_objectOf|].
  unfold objectOf. rewrite grouped_lookup, Hchild, range_assign_lookup, Hprop.
  rewrite <- getArgName_default.
  apply (assignArguments_lookup_last defaultArgNameMap 0); [done|].
  intros j Hj Heq. rewrite !getArgName_default in Heq.
  apply (inj (String.app "arg")), (inj pretty) in Heq. lia.
Qed.

(** X8: after [main] has stored the five flags, position 1 to 5 is named
    by its flag and every other position [i] is named [arg] followed by the
    decimal form of [i], whatever the flags are. *)
Theorem flags_rename_positions (arg1Name arg2Name arg3Name arg4Name arg5Name : string)
    (index : Z) :
  getArgName
    (setArgNames arg1Name arg2Name arg3Name arg4Name arg5Name defaultArgNameMap)
    index
  = if decide (index = 1%Z) then arg1Name
    else if decide (index = 2%Z) then arg2Name
    else if decide (index = 3%Z) then arg3Name
    else if decide (index = 4%Z) then arg4Name
    else if decide (index = 5%Z) then arg5Name
    else "arg" +:+ pretty index.
Proof.
  unfold getArgName at 1, setArgNames.
  repeat (rewrite lookup_insert; case_decide;
          [subst index; by repeat case_decide|]).
  repeat (case_decide; [congruence|]).
  fold (getArgName defaultArgNameMap index). apply getArgName_default.
Qed.

(** * Further properties of the resolver *)

Section ResolverMore.

Variable Abs : string → option string.
Variable Dir : string → string.
Variable JoinPath : string → string → string.
Variable ReadFile : string → option string.

(** ** Failures *)

(** The loop fails exactly at the first directive whose file fails, the
    lines before it having been processed. *)
Lemma processLines_Err recurse filename lines result included included'
    (err : IncludeError) :
  processLines Dir JoinPath recurse filename lines result included
  = (included', Err err) ↔
  ∃ before line after includeFile pieces included1 cause,
    lines = (before ++ line :: after)%list ∧
    Splices Dir JoinPath recurse filename before included pieces included1 ∧
    includeRegex line = Some includeFile ∧
    recurse (JoinPath (Dir filename) includeFile) included1
    = (included', Err cause) ∧
    err = IncludeFailed includeFile cause.
Proof.
  split.
  - revert result included.
    induction lines as [|line lines IH]; intros result included; cbn; [done|].
    destruct (includeRegex line) as [includeFile|] eqn:Hline.
    + destruct (recurse _ included) as [inc1 [content|cause|]] eqn:Hcall; [| |done].
      * intros (before & l & after & t & pieces & inc2 & c & -> & Hbefore & Hl & Hc & ->)%IH.
        exists (line :: before), l, after, t, (content :: pieces), inc2, c.
        split_and!; [done| |done..]. by econstructor.
      * intros [= <- <-].
        exists [], line, lines, includeFile, [], included, cause.
        split_and!; [done|constructor|done..].
    + intros (before & l & after & t & pieces & inc2 & c & -> & Hbefore & Hl & Hc & ->)%IH.
      exists (line :: before), l, after, t, (line :: pieces), inc2, c.
      split_and!; [done| |done..]. by constructor.
  - intros (before & line & after & t & pieces & inc1 & cause
            & -> & Hbefore & Hline & Hcall & ->).
    rewrite processLines_app.
    assert (processLines Dir JoinPath recurse filename before result included
            = (inc1, Ok (result ++ pieces)%list)) as ->.
    { apply processLines_Splices. by exists pieces. }
    cbn. by rewrite Hline, Hcall.
Qed.

(** X9: a call fails in one of four ways.  The path cannot be made
    absolute; or it is in the visited set; in both cases the set is left
    as it was.  Or the file cannot be read, its path being in the set by
    then.  Or the lines up to some directive are processed, the file that
    the directive names fails, and the failure is returned under the name
    written in the directive, no later line being looked at. *)
Theorem failure_kinds (fuel : nat) (filename : string)
    (included included' : gmap string bool) (err : IncludeError) :
  processIncludes Abs Dir JoinPath ReadFile (S fuel) filename included
  = (included', Err err) ↔
  (Abs filename = None ∧ err = AbsFailed filename ∧ included' = included) ∨
  (∃ absPath, Abs filename = Some absPath ∧ visited included absPath = true ∧
     err = CircularInclude filename ∧ included' = included) ∨
  (∃ absPath, Abs filename = Some absPath ∧ visited included absPath = false ∧
     ReadFile filename = None ∧
     err = ReadFailed filename ∧ included' = <[absPath := true]> included) ∨
  (∃ absPath content before line after includeFile pieces included1 cause,
     Abs filename = Some absPath ∧ visited included absPath = false ∧
     ReadFile filename = Some content ∧
     Split content LF = (before ++ line :: after)%list ∧
     Splices Dir JoinPath (processIncludes Abs Dir JoinPath ReadFile fuel)
       filename before (<[absPath := true]> included) pieces included1 ∧
     includeRegex line = Some includeFile ∧
     processIncludes Abs Dir JoinPath ReadFile fuel
       (JoinPath (Dir filename) includeFile) included1
     = (included', Err cause) ∧
     err = IncludeFailed includeFile cause).
Proof.
  cbn. split.
  - destruct (Abs filename) as [absPath|]; [|intros [= <- <-]; by left].
    destruct (visited included absPath) eqn:Hseen.
    { intros [= <- <-]. right. left. by exists absPath. }
    destruct (ReadFile filename) as [content|];
      [|intros [= <- <-]; right; right; left; by exists absPath].
    destruct (negb (Contains content "@include")); [done|].
    destruct (processLines _ _ _ _ _ _ _) as [inc1 [result|e|]] eqn:Hlines; [done| |done].
    intros [= <- <-].
    apply processLines_Err in Hlines
      as (before & line & after & t & pieces & inc2 & cause
          & Hsplit & Hbefore & Hline & Hcall & Herr).
    right. right. right.
    exists absPath, content, before, line, after, t, pieces, inc2, cause.
    by split_and!.
  - intros [(-> & -> & ->)|[(absPath & -> & -> & -> & ->)
      |[(absPath & -> & -> & -> & -> & ->)
       |(absPath & content & before & line & after & t & pieces & inc1 & cause
         & -> & -> & -> & Hsplit & Hbefore & Hline & Hcall & ->)]]]; [done..|].
    rewrite (directive_has_marker content line t)
      by (done || rewrite Hsplit; set_solver).
    cbn.
    assert (processLines Dir JoinPath (processIncludes Abs Dir JoinPath ReadFile fuel)
              filename (Split content LF) [] (<[absPath := true]> included)
            = (included', Err (IncludeFailed t cause))) as ->; [|done].
    apply processLines_Err.
    exists before, line, after, t, pieces, inc1, cause. by split_and!.
Qed.

(** X10: when the failure is, at its root, a circular include, the path it
    names is one whose absolute path is in the visited set that the call
    leaves. *)
Theorem circular_names_visited (fuel : nat) (filename again : string)
    (included included' : gmap string bool) (err : IncludeError) :
  processIncludes Abs Dir JoinPath ReadFile fuel filename included
  = (included', Err err) →
  rootCause err = CircularInclude again →
  ∃ absPath, Abs again = Some absPath ∧ visited included' absPath = true.
Proof.
  revert filename included included' err.
  induction fuel as [|fuel IH]; intros filename included included' err; [done|].
  cbn.
  destruct (Abs filename) as [absPath|] eqn:Habs; [|by intros [= <- <-]].
  destruct (visited included absPath) eqn:Hseen.
  { intros [= <- <-] [= <-]. eauto. }
  destruct (ReadFile filename) as [content|]; [|by intros [= <- <-]].
  destruct (negb (Contains content "@include")); [done|].
  destruct (processLines _ _ _ _ _ _ _) as [inc1 [result|e|]] eqn:Hlines; [done| |done].
  intros [= <- <-].
  apply processLines_Err in Hlines
    as (before & line & after & t & pieces & inc2 & cause & _ & _ & _ & Hcall & ->).
  cbn. by eapply IH.
Qed.

End ResolverMore.

(** ** The visited set and termination *)




Lemma unvisited_mono (files : gset string) (included included' : gmap string bool) :
  (∀ a, visited included a = true → visited included' a = true) →
  (unvisited files included' ≤ unvisited files included)%nat.
Proof.
  intros Hmono. apply subseteq_size. intros a.
  rewrite !elem_of_filter. intros [Hnew Hin]. split; [|done].
  destruct (visited included a) eqn:Hseen; [|done].
  by rewrite (Hmono a Hseen) in Hnew.
Qed.

Lemma unvisited_insert (files : gset string) (included : gmap string bool)
    (absPath : string) :
  absPath ∈ files →
  visited included absPath = false →
  (unvisited files (<[absPath := true]> included) < unvisited files included)%nat.
Proof.
  intros Hin Hnew. apply subset_size. split.
  - intros a. rewrite !elem_of_filter, visited_insert.
    intros [[_ ?]%orb_false_iff ?]. done.
  - intros Hsub. specialize (Hsub absPath).
    rewrite !elem_of_filter, visited_insert, bool_decide_true in Hsub by done.
    by destruct Hsub.
Qed.

Section ResolverInvariants.

Variable Abs : string → option string.
Variable Dir : string → string.
Variable JoinPath : string → string → string.
Variable ReadFile : string → option string.



Lemma processLines_returns recurse filename lines result included
    (files : gset string) (fuel : nat) :
  (∀ f inc inc' (r : Result string), recurse f inc = (inc', r) →
     ∀ a, visited inc a = true → visited inc' a = true) →
  (∀ f inc, (unvisited files inc < fuel)%nat → (recurse f inc).2 ≠ OutOfFuel) →
  (unvisited files included < fuel)%nat →
  (processLines Dir JoinPath recurse filename lines result included).2 ≠ OutOfFuel.
Proof.
  intros Hmono Hrec. revert result included.
  induction lines as [|line lines IH]; intros result included Hfuel; cbn; [done|].
  destruct (includeRegex line) as [includeFile|]; [|by apply IH].
  pose proof (Hrec (JoinPath (Dir filename) includeFile) included Hfuel) as Hcall.
  destruct (recurse _ included) as [inc1 [content|err|]] eqn:Heq; [|done..].
  apply IH. pose proof (unvisited_mono files included inc1 (Hmono _ _ _ _ Heq)). lia.
Qed.

(** X12: resolution terminates on a finite file system.  When every file
    that can be read has its absolute path in the finite set [files], a
    call returns, with text or with an error, within a recursion depth of
    one more than the number of those paths that are not yet visited. *)
Theorem resolution_terminates (files : gset string) (fuel : nat)
    (filename : string) (included : gmap string bool) :
  (∀ f absPath, Abs f = Some absPath → is_Some (ReadFile f) → absPath ∈ files) →
  (unvisited files included < fuel)%nat →
  (processIncludes Abs Dir JoinPath ReadFile fuel filename included).2 ≠ OutOfFuel.
Proof.
  intros Hfiles. revert filename included.
  induction fuel as [|fuel IH]; intros filename included Hfuel; [lia|]. cbn.
  destruct (Abs filename) as [absPath|] eqn:Habs; [|done].
  destruct (visited included absPath) eqn:Hnew; [done|].
  destruct (ReadFile filename) as [content|] eqn:Hread; [|done].
  destruct (negb (Contains content "@include")); [done|].
  assert (absPath ∈ files) as Hin by (by eapply Hfiles).
  pose proof (unvisited_insert files included absPath Hin Hnew) as Hless.
  pose proof (processLines_returns (processIncludes Abs Dir JoinPath ReadFile fuel)
                filename (Split content LF) [] (<[absPath := true]> included)
                files fuel
                (processIncludes_visited_mono Abs Dir JoinPath ReadFile fuel)
                IH ltac:(lia)) as Hlines.
  by destruct (processLines _ _ _ _ _ _ _) as [inc1 [result|err|]].
Qed.

End ResolverInvariants.

(** ** The resolved text *)

Lemma Split_app_sep (a b : string) (sep : ascii) :
  Split (a ++ String sep b) sep = (Split a sep ++ Split b sep)%list.
Proof.
  induction a as [|c a IH].
  - change ("" ++ String sep b) with (String sep b). cbn.
    by rewrite Ascii.eqb_refl.
  - rewrite app_cons. cbn [Split]. rewrite IH.
    destruct (Split_cons_inv a sep) as [first [others ->]].
    by destruct (c =? sep)%char.
Qed.

(** The lines of a joined text are the lines of its pieces, in order. *)
Lemma Split_Join (piece : string) (pieces : list string) (sep : ascii) :
  Split (Join (piece :: pieces) (String sep "")) sep
  = concat ((λ p, Split p sep) <$> piece :: pieces).
Proof.
  revert piece. induction pieces as [|next pieces IH]; intros piece.
  - cbn. by rewrite (right_id_L [] app).
  - rewrite Join_cons_cons.
    change (String sep "" ++ ?s) with (String sep s).
    by rewrite Split_app_sep, IH.
Qed.

(** A line that [Split] returns holds no separator. *)
Lemma Split_line_whole (s : string) (sep : ascii) (line : string) :
  line ∈ Split s sep → Split line sep = [line].
Proof.
  revert line. induction s as [|c s IH]; intros line; cbn [Split].
  - by intros ->%list_elem_of_singleton.
  - destruct (Split_cons_inv s sep) as [first [others Hsplit]].
    rewrite Hsplit in IH |- *.
    destruct (c =? sep)%char eqn:Hc.
    + intros [->|Hin]%elem_of_cons; [done|by apply IH].
    + intros [->|Hin]%elem_of_cons; [|apply IH; by right].
      cbn [Split]. rewrite Hc, (IH first) by (by left). done.
Qed.

Section ResolvedText.

Variable Abs : string → option string.
Variable Dir : string → string.
Variable JoinPath : string → string → string.
Variable ReadFile : string → option string.

Lemma Splices_no_directive recurse filename lines included pieces included' :
  (∀ f inc inc' out, recurse f inc = (inc', Ok out) →
     ∀ line, line ∈ Split out LF → includeRegex line = None) →
  Forall (λ line, Split line LF = [line]) lines →
  Splices Dir JoinPath recurse filename lines included pieces included' →
  ∀ piece line, piece ∈ pieces → line ∈ Split piece LF → includeRegex line = None.
Proof.
  intros Hrec Hwhole Hsplices.
  induction Hsplices as
    [included
    |l lines included pieces included' Hline _ IH
    |l lines included includeFile content included1 pieces included' Hline Hcall _ IH];
    intros piece line Hpiece Hin.
  - by apply elem_of_nil in Hpiece.
  - apply Forall_cons in Hwhole as [Hl Hwhole].
    apply elem_of_cons in Hpiece as [->|Hpiece]; [|by eapply IH].
    rewrite Hl in Hin. by apply list_elem_of_singleton in Hin as ->.
  - apply Forall_cons in Hwhole as [_ Hwhole].
    apply elem_of_cons in Hpiece as [->|Hpiece]; [|by eapply IH].
    by eapply Hrec.
Qed.

Lemma processIncludes_no_directive (fuel : nat) (filename out : string)
    (included included' : gmap string bool) :
  processIncludes Abs Dir JoinPath ReadFile fuel filename included
  = (included', Ok out) →
  ∀ line, line ∈ Split out LF → includeRegex line = None.
Proof.
  revert filename out included included'.
  induction fuel as [|fuel IH]; intros filename out included included'; [done|].
  cbn.
  destruct (Abs filename) as [absPath|]; [|done].
  destruct (visited included absPath); [done|].
  destruct (ReadFile filename) as [content|]; [|done].
  destruct (Contains content "@include") eqn:Hmarker; cbn.
  - destruct (processLines _ _ _ _ _ _ _) as [inc1 [result|err|]] eqn:Hlines; [|done..].
    intros [= <- <-] line Hin.
    apply processLines_Splices in Hlines as (pieces & -> & Hpieces).
    cbn in Hin. destruct pieces as [|piece pieces].
    { by apply list_elem_of_singleton in Hin as ->. }
    rewrite Split_Join in Hin.
    apply list_elem_of_In, in_concat in Hin as (ls & Hls & Hline).
    apply list_elem_of_In, list_elem_of_fmap in Hls as (p & -> & Hp).
    apply list_elem_of_In in Hline.
    eapply (Splices_no_directive _ _ _ _ _ _ (λ f inc inc' o, IH f o inc inc'));
      [|done..].
    apply Forall_forall. intros l Hl. by eapply Split_line_whole.
  - intros [= <- <-] line Hin. by apply (no_marker_no_directive content).
Qed.

(** X13: the text that a successful resolution returns has no line that
    the directive pattern matches, and so no line of the directive's shape:
    every directive, at every depth, has been replaced. *)
Theorem resolved_text_has_no_directive (fuel : nat) (filename out : string)
    (included included' : gmap string bool) :
  processIncludes Abs Dir JoinPath ReadFile fuel filename included
  = (included', Ok out) →
  ∀ line, line ∈ Split out LF →
    includeRegex line = None ∧ ∀ path rest, ¬ directiveShape line path rest.
Proof.
  intros Hrun line Hin.
  pose proof (processIncludes_no_directive _ _ _ _ _ Hrun line Hin) as Hnone.
  split; [done|]. intros path rest Hshape.
  assert (includeRegex line = Some path) as Hsome
    by (apply includeRegex_spec; eauto).
  congruence.
Qed.

End ResolvedText.

Section ResolvedTextAgain.

Variable Abs : string → option string.
Variable Dir : string → string.
Variable JoinPath : string → string → string.
Variable ReadFile : string → option string.

Lemma Splices_length recurse filename lines included pieces included' :
  Splices Dir JoinPath recurse filename lines included pieces included' →
  length pieces = length lines.
Proof. induction 1; cbn; congruence. Qed.

(** X14: the lines of the text that a successful resolution returns are
    the lines of the pieces that took the place of the file's lines, in
    order: an included text of several lines takes several lines. *)
Theorem resolved_lines (fuel : nat) (filename out : string)
    (included included' : gmap string bool) :
  processIncludes Abs Dir JoinPath ReadFile (S fuel) filename included
  = (included', Ok out) →
  ∃ absPath content pieces,
    Abs filename = Some absPath ∧
    ReadFile filename = Some content ∧
    Splices Dir JoinPath (processIncludes Abs Dir JoinPath ReadFile fuel)
      filename (Split content LF) (<[absPath := true]> included)
      pieces included' ∧
    Split out LF = concat ((λ piece, Split piece LF) <$> pieces).
Proof.
  cbn.
  destruct (Abs filename) as [absPath|]; [|done].
  destruct (visited included absPath); [done|].
  destruct (ReadFile filename) as [content|]; [|done].
  assert (∀ pieces inc,
            Splices Dir JoinPath (processIncludes Abs Dir JoinPath ReadFile fuel)
              filename (Split content LF) (<[absPath := true]> included) pieces inc →
            Split (Join pieces (String LF "")) LF
            = concat ((λ piece, Split piece LF) <$> pieces)) as Hjoin.
  { intros pieces inc Hlen%Splices_length.
    destruct (Split_cons_inv content LF) as [first [others Hsplit]].
    rewrite Hsplit in Hlen. destruct pieces as [|piece pieces]; [done|].
    apply Split_Join. }
  destruct (Contains content "@include") eqn:Hmarker; cbn.
  - destruct (processLines _ _ _ _ _ _ _) as [inc1 [result|err|]] eqn:Hlines; [|done..].
    intros [= <- <-].
    apply processLines_Splices in Hlines as (pieces & -> & Hpieces).
    exists absPath, content, pieces. split_and!; [done..|].
    by eapply Hjoin.
  - intros [= <- <-].
    assert (Splices Dir JoinPath (processIncludes Abs Dir JoinPath ReadFile fuel)
              filename (Split content LF) (<[absPath := true]> included)
              (Split content LF) (<[absPath := true]> included)) as Hcopy.
    { apply Splices_plain; [|done]. apply Forall_forall. intros line Hin.
      by apply (no_marker_no_directive content). }
    exists absPath, content, (Split content LF). split_and!; [done..|].
    rewrite <- (Hjoin _ _ Hcopy). by rewrite Join_Split.
Qed.

(** X15: resolving is idempotent.  A file that holds the text of a
    successful resolution resolves to that same text. *)
Theorem resolution_idempotent (fuel fuel' : nat) (filename out : string)
    (included included' : gmap string bool)
    (again absPath : string) (included2 : gmap string bool) :
  processIncludes Abs Dir JoinPath ReadFile fuel filename included
  = (included', Ok out) →
  Abs again = Some absPath →
  visited included2 absPath = false →
  ReadFile again = Some out →
  processIncludes Abs Dir JoinPath ReadFile (S fuel') again included2
  = (<[absPath := true]> included2, Ok out).
Proof.
  intros Hrun Habs Hnew Hread.
  pose proof (processIncludes_no_directive Abs Dir JoinPath ReadFile
                fuel filename out included included' Hrun)
    as Hclean.
  cbn. rewrite Habs, Hnew, Hread.
  destruct (negb (Contains out "@include")); [done|].
  rewrite processLines_plain by (by apply Forall_forall).
  cbn. by rewrite Join_Split.
Qed.

End ResolvedTextAgain.

(** ** Shapes, and documents put together *)

Section TranscoderShapes.

Variable argNameMap : gmap Z string.

(** X16: the shape of a node's value is read off its fields.  It is a map
    exactly when the node has a child or a property; a slice exactly when
    it has neither and at least two arguments; otherwise a scalar. *)
Theorem shape_by_fields (node : Node) :
  ((∃ obj, convertNodeToValue argNameMap node = GoMap obj) ↔
     Children node ≠ [] ∨ Properties node ≠ ∅) ∧
  (is_array (convertNodeToValue argNameMap node) = true ↔
     Children node = [] ∧ Properties node = ∅ ∧ (2 ≤ length (Arguments node))%nat) ∧
  (is_scalar (convertNodeToValue argNameMap node) = true ↔
     Children node = [] ∧ Properties node = ∅ ∧ (length (Arguments node) ≤ 1)%nat).
Proof.
  destruct (decide (Children node ≠ [] ∨ Properties node ≠ ∅)) as [Hobj|Hleaf].
  - rewrite (convertNodeToValue_objectOf _ _ Hobj). cbn. split; [|split].
    + split; [done|eauto].
    + split; [done|]. intros (Hch & Hprops & _). by destruct Hobj.
    + split; [done|]. intros (Hch & Hprops & _). by destruct Hobj.
  - assert (Children node = []) as Hch.
    { destruct (Children node); [done|]. destruct Hleaf. by left. }
    assert (Properties node = ∅) as Hprops.
    { destruct (decide (Properties node = ∅)); [done|]. destruct Hleaf. by right. }
    rewrite (convertNodeToValue_leaf _ _ Hch Hprops).
    split; [|split].
    + split; [|done]. intros [obj Hmap].
      destruct (Arguments node) as [|a [|b rest]]; [done| |done].
      pose proof (convertValue_scalar a) as Ha. by rewrite Hmap in Ha.
    + destruct (Arguments node) as [|a [|b rest]]; cbn.
      * split; [done|]. intros (_ & _ & ?). lia.
      * pose proof (convertValue_scalar a) as Ha.
        split; [by destruct (convertValue a)|]. intros (_ & _ & ?). lia.
      * split; [|done]. intros _. split_and!; [done..|lia].
    + destruct (Arguments node) as [|a [|b rest]]; cbn.
      * split; [|done]. intros _. split_and!; [done..|lia].
      * split; [|intros _; apply convertValue_scalar].
        intros _. split_and!; [done..|lia].
      * split; [done|]. intros (_ & _ & ?). lia.
Qed.

(** X17: names are grouped over the whole document.  When nodes [more] are
    put after nodes [nodes], as an included file's nodes are, a name that
    [more] does not bear keeps its value, a name that [nodes] does not bear
    gets the value it has in [more] alone, and a name that both bear gets
    the slice of all its nodes, those of [nodes] first. *)
Theorem documents_appended (nodes more : list Node) (name : string) :
  let here := filter (λ n, Name n = name) nodes in
  let there := filter (λ n, Name n = name) more in
  (there = [] →
     convertKDLToJSON argNameMap (nodes ++ more) !! name
     = convertKDLToJSON argNameMap nodes !! name) ∧
  (here = [] →
     convertKDLToJSON argNameMap (nodes ++ more) !! name
     = convertKDLToJSON argNameMap more !! name) ∧
  (here ≠ [] → there ≠ [] →
     convertKDLToJSON argNameMap (nodes ++ more) !! name
     = Some (GoSlice ((convertNodeToValue argNameMap <$> here)
                      ++ (convertNodeToValue argNameMap <$> there)))).
Proof.
  intros here there. unfold convertKDLToJSON.
  rewrite !grouped_lookup, filter_app. fold here there.
  split_and!.
  - intros ->. by rewrite (right_id_L [] app).
  - by intros ->.
  - intros Hhere Hthere. rewrite <- fmap_app.
    destruct here as [|x [|y here']]; [done| |done].
    by destruct there.
Qed.

End TranscoderShapes.

(** ** The further properties on concrete documents and files *)

Lemma default_names_distinct_witness :
  getArgName defaultArgNameMap 2 ≠ getArgName defaultArgNameMap 12.
Proof.
  destruct default_names_distinct as [_ Hinj].
  intros Heq. by apply Hinj in Heq.
Defined.

Lemma default_names_keep_arguments_witness :
  ∃ obj, convertNodeToValue defaultArgNameMap scene = GoMap obj ∧
    obj !! "arg1" = Some (GoString "GameScene").
Proof.
  apply (default_names_keep_arguments scene 0 (Some (VString "GameScene")));
    [by left|done..].
Defined.

Lemma properties_object_witness :
  ∃ obj, convertNodeToValue argNamesX sword = GoMap obj ∧
    obj !! "damage" = Some (GoInt64 10) ∧
    obj !! "x" = Some (GoString "sword") ∧
    obj !! "arg1" = None.
Proof.
  destruct (properties_object argNamesX sword eq_refl)
    as (obj & Hobj & Hprop & Harg & Hnone); [apply map_non_empty_singleton|].
  exists obj. split_and!; [done| | |].
  - by apply (Hprop "damage" (Some (VInt64 10))).
  - apply (Harg 0%nat (Some (VString "sword"))); [done..|].
    intros [|[|j]] Hj; cbn in Hj; [lia|done|lia].
  - apply (Hnone "arg1"); [done|].
    intros [|[|i]] Hi; cbn in Hi; [done|done|lia].
Defined.

Lemma childless_is_flat_witness : is_flat (convertNodeToValue argNames sword).
Proof. by apply (childless_is_flat argNames sword). Defined.

Lemma object_keys_witness :
  ∃ obj, convertNodeToValue argNames scene = GoMap obj ∧
    dom obj =@{gset string} {[ "arg1"; "player" ]}.
Proof.
  destruct (object_keys argNames scene) as (obj & Hobj & Hdom); [by left|].
  exists obj. split; [done|]. rewrite Hdom. cbn. set_solver.
Defined.

Lemma map_order_irrelevant_witness :
  convertNodeToValue argNamesX crowded =
    GoMap (range_assign_in (convertGroup (convertNodeToValue argNamesX))
             (reverse (map_to_list (groupByKey Name (Children crowded))))
             (range_assign_in convertValue (reverse (map_to_list (Properties crowded)))
                (assignArguments argNamesX 0 (Arguments crowded) ∅))).
Proof.
  apply (map_order_irrelevant argNamesX crowded); [done|apply reverse_Permutation..].
Defined.

Lemma failure_kinds_witness :
  processIncludes Abs Dir JoinPath (ReadFile Cases.dangling) 2 "main.kdl" ∅
  = (<["gone.kdl" := true]> (<["main.kdl" := true]> ∅),
     Err (IncludeFailed "gone.kdl" (ReadFailed "gone.kdl"))).
Proof.
  apply (failure_kinds Abs Dir JoinPath (ReadFile Cases.dangling)).
  right. right. right.
  exists "main.kdl", (lines ["first 1"; "@include " ++ q "gone.kdl"; "last 2"]),
    ["first 1"], ("@include " ++ q "gone.kdl"), ["last 2"], "gone.kdl",
    ["first 1"], (<["main.kdl" := true]> ∅), (ReadFailed "gone.kdl").
  split_and!; [done..| |done|done|done].
  apply splices_copy; [done|apply splices_done].
Defined.

Lemma circular_names_visited_witness :
  ∃ absPath, Abs "file1.kdl" = Some absPath ∧
    visited (<["file2.kdl" := true]> (<["file1.kdl" := true]> ∅)) absPath = true.
Proof.
  by apply (circular_names_visited Abs Dir JoinPath (ReadFile circular) 3
              "file1.kdl" "file1.kdl" ∅ _
              (IncludeFailed "file2.kdl"
                 (IncludeFailed "file1.kdl" (CircularInclude "file1.kdl")))).
Defined.


Lemma resolution_terminates_witness :
  (processIncludes Abs Dir JoinPath (ReadFile circular) 3 "file1.kdl" ∅).2 ≠ OutOfFuel.
Proof.
  apply (resolution_terminates Abs Dir JoinPath (ReadFile circular)
           {[ "file1.kdl"; "file2.kdl" ]}).
  - intros f absPath [= <-] [content Hread].
    unfold circular in Hread. cbn [ReadFile] in Hread.
    destruct (String.eqb_spec "file1.kdl" f) as [<-|_]; [set_solver|].
    destruct (String.eqb_spec "file2.kdl" f) as [<-|_]; [set_solver|done].
  - vm_compute. lia.
Defined.

Lemma resolved_text_has_no_directive_witness :
  includeRegex "config {" = None ∧
  ∀ path rest, ¬ directiveShape "config {" path rest.
Proof.
  apply (resolved_text_has_no_directive Abs Dir JoinPath (ReadFile basicInclude) 2
           "main.kdl" Cases.resolvedText ∅
           (<["base.kdl" := true]> (<["main.kdl" := true]> ∅))); [done|].
  vm_compute. by left.
Defined.

Lemma resolved_lines_witness :
  ∃ absPath content pieces,
    Abs "main.kdl" = Some absPath ∧
    ReadFile basicInclude "main.kdl" = Some content ∧
    Splices Dir JoinPath (processIncludes Abs Dir JoinPath (ReadFile basicInclude) 1)
      "main.kdl" (Split content LF) (<[absPath := true]> ∅) pieces
      (<["base.kdl" := true]> (<["main.kdl" := true]> ∅)) ∧
    Split Cases.resolvedText LF = concat ((λ piece, Split piece LF) <$> pieces).
Proof.
  by apply (resolved_lines Abs Dir JoinPath (ReadFile basicInclude) 1 "main.kdl"
              Cases.resolvedText ∅).
Defined.

Lemma resolution_idempotent_witness :
  processIncludes Abs Dir JoinPath (ReadFile Cases.stored) 1 "resolved.kdl" ∅
  = (<["resolved.kdl" := true]> ∅, Ok Cases.resolvedText).
Proof.
  by apply (resolution_idempotent Abs Dir JoinPath (ReadFile Cases.stored) 2 0
              "main.kdl" Cases.resolvedText ∅
              (<["base.kdl" := true]> (<["main.kdl" := true]> ∅))
              "resolved.kdl" "resolved.kdl" ∅).
Defined.

Lemma shape_by_fields_witness :
  is_scalar (convertNodeToValue argNames emptyBraces) = true ∧
  is_array (convertNodeToValue argNames shield) = false.
Proof.
  split.
  - apply (shape_by_fields argNames emptyBraces). split_and!; [done..|cbn; lia].
  - destruct (shape_by_fields argNames shield) as (_ & Harray & _).
    apply not_true_is_false. intros Hshape.
    apply Harray in Hshape as (_ & _ & Hlen). cbn in Hlen. lia.
Defined.

Lemma documents_appended_witness :
  convertKDLToJSON argNames ([sword; scene] ++ [shield; potion]) !! "scene"
  = convertKDLToJSON argNames [sword; scene] !! "scene" ∧
  convertKDLToJSON argNames ([sword; scene] ++ [shield; potion]) !! "item"
  = Some (GoSlice ((convertNodeToValue argNames <$> [sword])
                   ++ (convertNodeToValue argNames <$> [shield; potion]))).
Proof.
  split.
  - by apply (documents_appended argNames [sword; scene] [shield; potion] "scene").
  - by apply (documents_appended argNames [sword; scene] [shield; potion] "item").
Defined.
